(** * Box management system: search, highlight and QR identity codec

    A shallow embedding of the pure parts of [frontend/src/App.jsx]:
    the QR locator codec ([generateQRCode], [onScanSuccess]), the
    highlight formatter ([highlightMatch]), the quantity handling of the
    item forms ([AddItemModal], the inline editor of [BoxDetail]) and the
    list filters ([filterBoxes], [filterItems]).

    JavaScript strings are modelled as lists of code units; a code unit
    is an [ascii], so the strings of the model are those whose code
    units lie below 256 (Latin-1), and the case mappings are those of
    the language on these code units.  Numbers are the integers among
    the doubles, with [NaN], the negative zero and the infinities.  The
    library fuse.js, which the filters call, is not part of the
    sources: its search is modelled from the specification, with the
    scoring of a field left open. *)

From Stdlib Require Import String Ascii Bool Arith ZArith QArith Lia Lqa List.
From Stdlib Require Import Sorting.Sorted Sorting.Permutation.
Import ListNotations.

Set Implicit Arguments.
Close Scope Q_scope.
Open Scope nat_scope.
Open Scope list_scope.

(* ================================================================== *)
(** ** JavaScript strings *)
(* ================================================================== *)

Module JS.

Definition str : Type := list ascii.

(** A string literal of the source. *)
Definition lit (s : string) : str := list_ascii_of_string s.

Definition str_eqb (a b : str) : bool :=
  if list_eq_dec ascii_dec a b then true else false.

(** The lower-case mapping of a code unit below 256: the letters A-Z
    and the Latin-1 capitals from U+00C0 to U+00DE, the multiplication
    sign U+00D7 apart, lie 32 below their small letters; no other code
    unit of the model changes. *)
Definition lower_char (c : ascii) : ascii :=
  let n := nat_of_ascii c in
  if ((65 <=? n) && (n <=? 90))
     || ((192 <=? n) && (n <=? 222) && negb (n =? 215))
  then ascii_of_nat (n + 32) else c.

(** [String.prototype.toLowerCase]; below 256 no mapping depends on the
    context or changes the length. *)
Definition toLowerCase (s : str) : str := map lower_char s.

(** [s.startsWith(p)]: does [p] occur in [s] at index 0? *)
Fixpoint starts_with (p s : str) : bool :=
  match p, s with
  | [], _ => true
  | _ :: _, [] => false
  | a :: p', b :: s' => Ascii.eqb a b && starts_with p' s'
  end.

(** [s.includes(p)]. *)
Fixpoint includes (s p : str) : bool :=
  starts_with p s ||
  match s with
  | [] => false
  | _ :: s' => includes s' p
  end.

(** The first occurrence of a separator: the text before it and the text
    after it ([StringIndexOf] of the language specification). *)
Fixpoint break_at (sep s : str) : option (str * str) :=
  if starts_with sep s then Some ([], skipn (length sep) s)
  else match s with
       | [] => None
       | c :: s' =>
           match break_at sep s' with
           | Some (pre, rest) => Some (c :: pre, rest)
           | None => None
           end
       end.

(** The loop of [String.prototype.split] for a non-empty string
    separator; [n] bounds the number of separator occurrences. *)
Fixpoint split_loop (n : nat) (sep s : str) : list str :=
  match n with
  | 0 => [s]
  | S n' =>
      match break_at sep s with
      | None => [s]
      | Some (pre, rest) => pre :: split_loop n' sep rest
      end
  end.

(** [s.split(sep)] with a string separator and no limit.  An empty
    separator splits between all code units. *)
Definition split (s sep : str) : list str :=
  match sep with
  | [] => map (fun c => [c]) s
  | _ :: _ => split_loop (S (length s)) sep s
  end.

(** Indexing an array of strings and using the element in a template
    literal: a missing element is [undefined] and prints as such. *)
Definition index_str (l : list str) (i : nat) : str :=
  nth i l (lit "undefined").

(** [sep] occurs in [s] at index [k]. *)
Definition occurs_at (sep s : str) (k : nat) : Prop :=
  starts_with sep (skipn k s) = true.

(** The first occurrence of [sep] in [pre ++ sep ++ rest] is the one
    shown: none starts inside [pre]. *)
Definition first_at (sep pre rest : str) : Prop :=
  forall k, k < length pre -> ~ occurs_at sep (pre ++ sep ++ rest) k.

End JS.

(* ================================================================== *)
(** ** The QR identity codec *)
(* ================================================================== *)

Module Codec.
Import JS.

(** The fixed path marker of the locator. *)
Definition marker : str := lit "/box/".

(** [generateQRCode]: the locator rendered into the QR code,
    [`${window.location.origin}/box/${box.id}`]. *)
Definition qr_url (origin boxId : str) : str := origin ++ marker ++ boxId.

(** The character class [[0-9a-f]] under the flag [i]. *)
Definition is_hex (c : ascii) : bool :=
  let n := nat_of_ascii c in
  ((48 <=? n) && (n <=? 57)) || ((97 <=? n) && (n <=? 102))
  || ((65 <=? n) && (n <=? 70)).

(** [[0-9a-f]{n}] at the head of [s]; the rest of [s] on success. *)
Fixpoint take_hex (n : nat) (s : str) : option str :=
  match n with
  | 0 => Some s
  | S n' =>
      match s with
      | c :: s' => if is_hex c then take_hex n' s' else None
      | [] => None
      end
  end.

(** A literal [-] at the head of [s]. *)
Definition take_dash (s : str) : option str :=
  match s with
  | c :: s' => if Ascii.eqb c "-"%char then Some s' else None
  | [] => None
  end.

Definition and_then {A B} (o : option A) (f : A -> option B) : option B :=
  match o with Some a => f a | None => None end.

(** [decodedText.match(/^[0-9a-f]{8}-[0-9a-f]{4}-[0-9a-f]{4}-[0-9a-f]{4}-[0-9a-f]{12}$/i)],
    as a truth value. *)
Definition uuid_match (s : str) : bool :=
  match
    and_then (take_hex 8 s) (fun s1 =>
    and_then (take_dash s1) (fun s1 =>
    and_then (take_hex 4 s1) (fun s2 =>
    and_then (take_dash s2) (fun s2 =>
    and_then (take_hex 4 s2) (fun s3 =>
    and_then (take_dash s3) (fun s3 =>
    and_then (take_hex 4 s3) (fun s4 =>
    and_then (take_dash s4) (fun s4 =>
    take_hex 12 s4))))))))
  with
  | Some [] => true
  | _ => false
  end.

(** What the scanner dialog can touch: the router's current path and the
    flag [showScanner] of [Navigation]. *)
Record ui : Type := mk_ui { path : str; showScanner : bool }.

(** [navigate(p)] of the router. *)
Definition navigate (p : str) (st : ui) : ui :=
  {| path := p; showScanner := showScanner st |}.

(** The [onClose] handed to [QRScanner]: [() => setShowScanner(false)]. *)
Definition onClose (st : ui) : ui :=
  {| path := path st; showScanner := false |}.

(** [onScanSuccess]. *)
Definition onScanSuccess (decodedText : str) (st : ui) : ui :=
  let st' :=
    if includes decodedText marker then
      let boxId := index_str (split decodedText marker) 1 in
      navigate (marker ++ boxId) st
    else if uuid_match decodedText then
      navigate (marker ++ decodedText) st
    else st
  in
  onClose st'.

(** The outcome of decoding a scanned text: the candidate identifier the
    handler navigates to, or no navigation at all. *)
Definition decode (decodedText : str) : option str :=
  if includes decodedText marker then
    Some (index_str (split decodedText marker) 1)
  else if uuid_match decodedText then Some decodedText
  else None.

(** The serialisation of an origin: a scheme, [://], and a host with an
    optional port; neither part contains a slash. *)
Definition slash_free (s : str) : bool :=
  forallb (fun c => negb (Ascii.eqb c "/"%char)) s.

Definition is_origin (o : str) : bool :=
  match break_at (lit "://") o with
  | Some (scheme, host) =>
      negb (str_eqb scheme []) && negb (str_eqb host [])
      && slash_free scheme && slash_free host
  | None => false
  end.

(** [n] hexadecimal digits of either case. *)
Definition hex_group (n : nat) (g : str) : Prop :=
  length g = n /\ Forall (fun c => is_hex c = true) g.

(** The lexical shape of a canonical identifier: five groups of 8, 4,
    4, 4 and 12 hexadecimal digits, joined by hyphens. *)
Definition uuid_shape (s : str) : Prop :=
  exists g1 g2 g3 g4 g5,
    s = g1 ++ lit "-" ++ g2 ++ lit "-" ++ g3 ++ lit "-" ++ g4 ++ lit "-" ++ g5
    /\ hex_group 8 g1 /\ hex_group 4 g2 /\ hex_group 4 g3
    /\ hex_group 4 g4 /\ hex_group 12 g5.

(** [p] occurs somewhere in [s]. *)
Definition contains (s p : str) : Prop := exists a b, s = a ++ p ++ b.

(** The text strictly between an occurrence of the marker at index [i]
    and an occurrence at index [j]: from the end of the first to the
    start of the second. *)
Definition substring_between (i j : nat) (s : str) : str :=
  firstn (j - (i + length marker)) (skipn (i + length marker) s).

(** A valid identifier and the origin of a host named [box]. *)
Definition sample_id : str := lit "123e4567-e89b-12d3-a456-426614174000".

End Codec.

(* ================================================================== *)
(** ** Regular expressions: [new RegExp(p, 'gi')] and [split]

    The fragment of the pattern language modelled here: pattern
    characters, [.], [^], [$], capturing groups, [|] and the greedy
    quantifiers [*], [+], [?].  A pattern that uses anything else
    (a backslash, a bracket or brace, a group that starts with [(?], a
    lazy quantifier) is reported as [Unmodelled] and nothing is claimed
    about it.  Matching follows the backtracking semantics of the
    language specification, with matchers written as functions to the
    list of their results in order of priority. *)
(* ================================================================== *)

Module Regex.
Import JS.

Inductive regex : Type :=
| Empty
| Char (c : ascii)
| Dot
| InputStart
| InputEnd
| Seq (r1 r2 : regex)
| Alt (r1 r2 : regex)
| Group (n : nat) (r : regex)
| Star (r : regex)
| Plus (r : regex)
| Opt (r : regex).

Inductive parsed (A : Type) : Type :=
| Parsed (a : A)
| SyntaxError
| Unmodelled.
Arguments Parsed {A} a.
Arguments SyntaxError {A}.
Arguments Unmodelled {A}.

Definition mem_char (c : ascii) (s : string) : bool :=
  existsb (Ascii.eqb c) (list_ascii_of_string s).

(** [SyntaxCharacter] of the pattern grammar. *)
Definition is_syntax_char (c : ascii) : bool := mem_char c "^$\.*+?()[]{}|".

(** Characters whose meaning the model does not cover. *)
Definition is_unmodelled_char (c : ascii) : bool := mem_char c "\[]{}".

Definition is_quantifier_char (c : ascii) : bool := mem_char c "*+?".

(** An optional quantifier after an atom [r]. *)
Definition parse_quantifier (r : regex) (s : str) : parsed (regex * str) :=
  match s with
  | c :: s' =>
      if is_quantifier_char c then
        match s' with
        | c' :: _ =>
            if Ascii.eqb c' "?"%char then Unmodelled
            else Parsed (if Ascii.eqb c "*"%char then Star r
                         else if Ascii.eqb c "+"%char then Plus r
                         else Opt r, s')
        | [] => Parsed (if Ascii.eqb c "*"%char then Star r
                        else if Ascii.eqb c "+"%char then Plus r
                        else Opt r, s')
        end
      else Parsed (r, s)
  | [] => Parsed (r, s)
  end.

(** After an assertion no quantifier may follow. *)
Definition no_quantifier (s : str) : bool :=
  match s with
  | c :: _ => negb (is_quantifier_char c)
  | [] => true
  end.

(** [Disjunction] and [Alternative] of the pattern grammar; [n] is the
    number of groups opened so far, and the result carries the unread
    rest of the pattern.  [fuel] bounds the nesting of calls; a bound
    too small would report [Unmodelled]. *)
Fixpoint parse_disjunction (fuel : nat) (s : str) (n : nat)
  : parsed (regex * str * nat) :=
  match fuel with
  | 0 => Unmodelled
  | S f =>
      match parse_alternative f s n with
      | Parsed (r1, rest, n1) =>
          match rest with
          | c :: rest' =>
              if Ascii.eqb c "|"%char then
                match parse_disjunction f rest' n1 with
                | Parsed (r2, rest2, n2) => Parsed (Alt r1 r2, rest2, n2)
                | SyntaxError => SyntaxError
                | Unmodelled => Unmodelled
                end
              else Parsed (r1, rest, n1)
          | [] => Parsed (r1, rest, n1)
          end
      | SyntaxError => SyntaxError
      | Unmodelled => Unmodelled
      end
  end
with parse_alternative (fuel : nat) (s : str) (n : nat)
  : parsed (regex * str * nat) :=
  match fuel with
  | 0 => Unmodelled
  | S f =>
      match s with
      | [] => Parsed (Empty, [], n)
      | c :: s' =>
          if Ascii.eqb c "|"%char || Ascii.eqb c ")"%char then
            Parsed (Empty, s, n)
          else if is_unmodelled_char c then Unmodelled
          else if is_quantifier_char c then SyntaxError
          else if Ascii.eqb c "^"%char || Ascii.eqb c "$"%char then
            if no_quantifier s' then
              match parse_alternative f s' n with
              | Parsed (r2, rest, n2) =>
                  Parsed (Seq (if Ascii.eqb c "^"%char then InputStart
                               else InputEnd) r2, rest, n2)
              | SyntaxError => SyntaxError
              | Unmodelled => Unmodelled
              end
            else SyntaxError
          else if Ascii.eqb c "("%char then
            match s' with
            | c' :: _ =>
                if Ascii.eqb c' "?"%char then Unmodelled
                else
                  match parse_disjunction f s' (S n) with
                  | Parsed (r, rest, n1) =>
                      match rest with
                      | c'' :: rest' =>
                          (* [rest] can only start with the closing parenthesis *)
                          match parse_quantifier (Group n r) rest' with
                          | Parsed (t, rest'') =>
                              match parse_alternative f rest'' n1 with
                              | Parsed (r2, rest3, n2) =>
                                  Parsed (Seq t r2, rest3, n2)
                              | SyntaxError => SyntaxError
                              | Unmodelled => Unmodelled
                              end
                          | SyntaxError => SyntaxError
                          | Unmodelled => Unmodelled
                          end
                      | [] => SyntaxError
                      end
                  | SyntaxError => SyntaxError
                  | Unmodelled => Unmodelled
                  end
            | [] => SyntaxError
            end
          else
            match parse_quantifier
                    (if Ascii.eqb c "."%char then Dot else Char c) s' with
            | Parsed (t, rest) =>
                match parse_alternative f rest n with
                | Parsed (r2, rest2, n2) => Parsed (Seq t r2, rest2, n2)
                | SyntaxError => SyntaxError
                | Unmodelled => Unmodelled
                end
            | SyntaxError => SyntaxError
            | Unmodelled => Unmodelled
            end
      end
  end.

(** [new RegExp(pattern, 'gi')]: the parsed pattern and its number of
    capturing groups, or the [SyntaxError] the constructor throws. *)
Definition compile (pattern : str) : parsed (regex * nat) :=
  match parse_disjunction (2 * length pattern + 2) pattern 0 with
  | Parsed (r, [], n) => Parsed (r, n)
  | Parsed (_, _ :: _, _) => SyntaxError
  | SyntaxError => SyntaxError
  | Unmodelled => Unmodelled
  end.

(** A match state: the unread input, the index reached and the captures. *)
Record mstate : Type :=
  mk_mstate { rest : str; pos : nat; caps : list (option str) }.

Definition advance (x : mstate) : mstate :=
  {| rest := tl (rest x); pos := S (pos x); caps := caps x |}.

Fixpoint set_nth {A} (i : nat) (a : A) (l : list A) : list A :=
  match l, i with
  | [], _ => []
  | _ :: t, 0 => a :: t
  | h :: t, S i' => h :: set_nth i' a t
  end.

Definition set_cap (n : nat) (s : option str) (x : mstate) : mstate :=
  {| rest := rest x; pos := pos x; caps := set_nth n s (caps x) |}.

(** The groups inside a pattern, whose captures a new iteration of a
    quantifier forgets. *)
Fixpoint groups (r : regex) : list nat :=
  match r with
  | Seq r1 r2 | Alt r1 r2 => groups r1 ++ groups r2
  | Group n r => n :: groups r
  | Star r | Plus r | Opt r => groups r
  | _ => []
  end.

Definition forget (gs : list nat) (x : mstate) : mstate :=
  fold_right (fun n y => set_cap n None y) x gs.

(** [LineTerminator], which [.] does not match. *)
Definition is_line_terminator (c : ascii) : bool :=
  let n := nat_of_ascii c in (n =? 10) || (n =? 13).

(** [Canonicalize] under the flag [i] and without the flag [u]: the
    code unit of the upper-case mapping of the character, when that
    mapping is one code unit.  The small letters a-z and those from
    U+00E0 to U+00FE, the division sign U+00F7 apart, lie 32 above
    their capitals; the micro sign U+00B5 maps to U+039C and U+00FF to
    U+0178, outside the code units of the model, which is why the
    result is a number; the sharp s U+00DF, whose upper case is two
    letters, stays as it is. *)
Definition canonicalize (c : ascii) : nat :=
  let n := nat_of_ascii c in
  if ((97 <=? n) && (n <=? 122))
     || ((224 <=? n) && (n <=? 254) && negb (n =? 247))
  then n - 32
  else if n =? 181 then 924
  else if n =? 255 then 376
  else n.

Section Repeat.
Variable m : mstate -> list mstate.
Variable gs : list nat.

(** [RepeatMatcher] with minimum 0 and no maximum: an iteration that
    consumes nothing is refused, so [n] iterations suffice when [n]
    exceeds the length of the unread input. *)
Fixpoint star_from (n : nat) (x : mstate) : list mstate :=
  match n with
  | 0 => [x]
  | S n' =>
      flat_map (fun y => if pos y =? pos x then [] else star_from n' y)
               (m (forget gs x))
      ++ [x]
  end.

End Repeat.

(** The matcher of a pattern: every way to match at [x], best first. *)
Fixpoint matchR (r : regex) (x : mstate) : list mstate :=
  match r with
  | Empty => [x]
  | Char c =>
      match rest x with
      | a :: _ =>
          if canonicalize a =? canonicalize c then [advance x]
          else []
      | [] => []
      end
  | Dot =>
      match rest x with
      | a :: _ => if is_line_terminator a then [] else [advance x]
      | [] => []
      end
  | InputStart => if pos x =? 0 then [x] else []
  | InputEnd => match rest x with [] => [x] | _ :: _ => [] end
  | Seq r1 r2 => flat_map (matchR r2) (matchR r1 x)
  | Alt r1 r2 => matchR r1 x ++ matchR r2 x
  | Group n r' =>
      map (fun y => set_cap n (Some (firstn (pos y - pos x) (rest x))) y)
          (matchR r' x)
  | Star r' => star_from (matchR r') (groups r') (S (length (rest x))) x
  | Plus r' =>
      flat_map (fun y => star_from (matchR r') (groups r')
                                   (S (length (rest y))) y)
               (matchR r' (forget (groups r') x))
  | Opt r' =>
      flat_map (fun y => if pos y =? pos x then [] else [y])
               (matchR r' (forget (groups r') x))
      ++ [x]
  end.

(** [y] continues [x]: it has read some more of the input. *)
Inductive continues (x y : mstate) : Prop :=
| continues_by (k : nat) :
    rest y = skipn k (rest x) -> pos y = pos x + k -> k <= length (rest x) ->
    continues x y.

(** [RegExpExec] of a sticky copy of the pattern at index [q]. *)
Definition exec_at (r : regex) (ncaps : nat) (s : str) (q : nat)
  : option mstate :=
  match matchR r {| rest := skipn q s; pos := q; caps := repeat None ncaps |}
  with
  | y :: _ => Some y
  | [] => None
  end.

Definition substring (s : str) (p q : nat) : str := firstn (q - p) (skipn p s).

(** The loop of [RegExp.prototype[Symbol.split]]: [p] is the start of
    the pending piece and [q] the index tried next.  Every index is
    tried at most twice, which bounds [fuel]; [None] says the bound was
    too small. *)
Fixpoint split_loop (fuel : nat) (r : regex) (ncaps : nat) (s : str)
  (p q : nat) : option (list (option str)) :=
  match fuel with
  | 0 => None
  | S f =>
      if q <? length s then
        match exec_at r ncaps s q with
        | None => split_loop f r ncaps s p (S q)
        | Some y =>
            let e := Nat.min (pos y) (length s) in
            if e =? p then split_loop f r ncaps s p (S q)
            else
              match split_loop f r ncaps s e e with
              | Some l => Some (Some (substring s p q) :: caps y ++ l)
              | None => None
              end
        end
      else Some [Some (substring s p (length s))]
  end.

(** [s.split(regexp)] without a limit; a group that took no part in a
    match contributes [undefined], here [None]. *)
Definition split (s : str) (r : regex) (ncaps : nat)
  : option (list (option str)) :=
  match s with
  | [] => match exec_at r ncaps [] 0 with
          | Some _ => Some []
          | None => Some [Some []]
          end
  | _ :: _ => split_loop (2 * length s + 2) r ncaps s 0 0
  end.

(** The pattern that a string free of syntax characters parses to: its
    characters in sequence. *)
Fixpoint chars (q : str) : regex :=
  match q with
  | [] => Empty
  | c :: q' => Seq (Char c) (chars q')
  end.

(** The pattern that [highlightMatch] builds for such a query. *)
Definition literal_pattern (q : str) : regex := Seq (Group 0 (chars q)) Empty.

(** [q] stands at the head of [s], up to [canonicalize]. *)
Fixpoint prefix_ci (q s : str) : bool :=
  match q, s with
  | [], _ => true
  | _ :: _, [] => false
  | c :: q', a :: s' =>
      (canonicalize a =? canonicalize c) && prefix_ci q' s'
  end.

End Regex.

(* ================================================================== *)
(** ** The highlight formatter *)
(* ================================================================== *)

Module Highlight.
Import JS.

Inductive error : Type := SyntaxErr | TypeErr.

Inductive outcome (A : Type) : Type :=
| Returns (a : A)
| Throws (e : error)
| NotModelled.
Arguments Returns {A} a.
Arguments Throws {A} e.
Arguments NotModelled {A}.

(** A rendered piece: its text and whether it is wrapped in [<mark>]. *)
Definition segment : Type := (str * bool)%type.

(** [parts.map(part => part.toLowerCase() === search.toLowerCase() ? <mark> : part)];
    calling [toLowerCase] on [undefined] throws. *)
Fixpoint mark_parts (search : str) (parts : list (option str))
  : outcome (list segment) :=
  match parts with
  | [] => Returns []
  | None :: _ => Throws TypeErr
  | Some part :: parts' =>
      match mark_parts search parts' with
      | Returns l =>
          Returns ((part, str_eqb (toLowerCase part) (toLowerCase search)) :: l)
      | Throws e => Throws e
      | NotModelled => NotModelled
      end
  end.

(** [highlightMatch]. *)
Definition highlightMatch (text search : str) : outcome (list segment) :=
  match search with
  | [] => Returns [(text, false)]
  | _ :: _ =>
      match Regex.compile (lit "(" ++ search ++ lit ")") with
      | Regex.SyntaxError => Throws SyntaxErr
      | Regex.Unmodelled => NotModelled
      | Regex.Parsed (r, ncaps) =>
          match Regex.split text r ncaps with
          | Some parts => mark_parts search parts
          | None => NotModelled
          end
      end
  end.

(** The text a list of segments displays. *)
Definition shown (l : list segment) : str := concat (map fst l).

(** A query without pattern syntax. *)
Definition literal_query (q : str) : Prop :=
  Forall (fun c => Regex.is_syntax_char c = false) q.

(** [query] stands at the head of [s], regardless of case. *)
Definition occurs_ci (query s : str) : Prop :=
  exists m t, s = m ++ t /\ toLowerCase m = toLowerCase query.

(** The segments of section 4.4, in the words of the specification: a
    left-to-right scan for the occurrences of [query] that do not
    overlap, regardless of case; unmatched and matched segments
    alternate, and each keeps the text as it stands. *)
Inductive literal_segments (query : str) : str -> list segment -> Prop :=
| segments_end (gap : str) :
    (forall j, j < length gap -> ~ occurs_ci query (skipn j gap)) ->
    literal_segments query gap [(gap, false)]
| segments_match (gap m rest : str) (l : list segment) :
    toLowerCase m = toLowerCase query ->
    (forall j, j < length gap ->
               ~ occurs_ci query (skipn j (gap ++ m ++ rest))) ->
    literal_segments query rest l ->
    literal_segments query (gap ++ m ++ rest) ((gap, false) :: (m, true) :: l).

(** A query without parentheses. *)
Definition paren_free (q : str) : Prop :=
  Forall (fun c => Ascii.eqb c "("%char = false /\ Ascii.eqb c ")"%char = false) q.

End Highlight.

(* ================================================================== *)
(** ** Item quantities: [parseInt] and the two item forms *)
(* ================================================================== *)

Module Quantity.
Import JS.

(** A JavaScript number as far as [parseInt] produces one: an integer
    among the doubles ([Num 0] is the positive zero), the negative
    zero, an infinity, or [NaN]. *)
Inductive number : Type :=
| NaN
| Num (z : Z)
| NegZero
| Infinity (negative : bool).

(** The Number value of a mathematical integer: the nearest double,
    that is the nearest integer with a significand of 53 bits, a tie
    going to the even significand; from 2^1024 on the result is an
    infinity. *)
Definition to_number (m : Z) : number :=
  let a := Z.abs m in
  if (a <? 2 ^ 53)%Z then Num m
  else
    let e := (Z.log2 a - 52)%Z in
    let q := Z.shiftr a e in
    let r := (a - Z.shiftl q e)%Z in
    let half := Z.shiftl 1 (e - 1) in
    let q' := (if (half <? r) || ((r =? half) && Z.odd q)
               then q + 1 else q)%Z in
    let v := Z.shiftl q' e in
    if (2 ^ 1024 <=? v)%Z then Infinity (m <? 0)%Z
    else Num (Z.sgn m * v).

(** [StrWhiteSpaceChar] among the code units of the model. *)
Definition is_white (c : ascii) : bool :=
  let n := nat_of_ascii c in
  ((9 <=? n) && (n <=? 13)) || (n =? 32) || (n =? 160).

Fixpoint trim_start (s : str) : str :=
  match s with
  | c :: s' => if is_white c then trim_start s' else s
  | [] => []
  end.

(** [String.prototype.trim]. *)
Definition trim (s : str) : str := rev (trim_start (rev (trim_start s))).

(** The opposite of a number that is not a zero. *)
Definition negate (n : number) : number :=
  match n with
  | Num y => Num (- y)
  | Infinity b => Infinity (negb b)
  | _ => n
  end.

(** The value of a digit in a radix, if it is one. *)
Definition digit_value (radix : Z) (c : ascii) : option Z :=
  let n := Z.of_nat (nat_of_ascii c) in
  let v := (if (48 <=? n) && (n <=? 57) then Some (n - 48)
            else if (97 <=? n) && (n <=? 122) then Some (n - 87)
            else if (65 <=? n) && (n <=? 90) then Some (n - 55)
            else None)%Z in
  match v with
  | Some d => if (d <? radix)%Z then Some d else None
  | None => None
  end.

(** The longest prefix of digits, read in the radix; [None] when the
    prefix is empty. *)
Fixpoint read_digits (radix : Z) (acc : option Z) (s : str) : option Z :=
  match s with
  | c :: s' =>
      match digit_value radix c with
      | Some d =>
          read_digits radix
            (Some (match acc with Some a => a * radix + d | None => d end)%Z) s'
      | None => acc
      end
  | [] => acc
  end.

(** [parseInt(string)] with no radix argument.  The digits are read as
    a mathematical integer, whose Number value is the result; the
    language lets an implementation put zeros for the decimal digits
    after the twentieth, which is not done here. *)
Definition parseInt (s : str) : number :=
  let s1 := trim_start s in
  let (sign, s2) :=
    match s1 with
    | c :: t =>
        if Ascii.eqb c "-"%char then ((-1)%Z, t)
        else if Ascii.eqb c "+"%char then (1%Z, t)
        else (1%Z, s1)
    | [] => (1%Z, s1)
    end in
  let (radix, s3) :=
    match s2 with
    | c0 :: cx :: t =>
        if Ascii.eqb c0 "0"%char
           && (Ascii.eqb cx "x"%char || Ascii.eqb cx "X"%char)
        then (16%Z, t) else (10%Z, s2)
    | _ => (10%Z, s2)
    end in
  match read_digits radix None s3 with
  | Some v =>
      if (v =? 0)%Z && (sign =? -1)%Z then NegZero else to_number (sign * v)
  | None => NaN
  end.

(** [ToBoolean] of a number. *)
Definition truthy (n : number) : bool :=
  match n with
  | NaN => false
  | Num z => negb (z =? 0)%Z
  | NegZero => false
  | Infinity _ => true
  end.

(** [a || b] on numbers. *)
Definition or_else (a b : number) : number := if truthy a then a else b.

(** The form data of [AddItemModal]. *)
Record formData : Type :=
  mk_form { name : str; quantity : number; details : str }.

Definition initial_form : formData :=
  {| name := []; quantity := Num 1; details := [] |}.

(** The [onChange] handler of the quantity field of [AddItemModal]:
    [setFormData({ ...formData, quantity: parseInt(e.target.value) || 1 })]. *)
Definition change_quantity (value : str) (fd : formData) : formData :=
  {| name := name fd;
     quantity := or_else (parseInt value) (Num 1);
     details := details fd |}.

(** The body of an item request as the persistence layer receives it. *)
Record item_payload : Type :=
  mk_payload { p_name : str; p_quantity : number; p_details : str;
               p_box_id : option str }.

(** [handleSubmit] of [AddItemModal] followed by [handleAddItem]:
    [axios.post('/items', { ...itemData, box_id: boxId })] when the name
    is not blank, and nothing otherwise. *)
Definition submit_add (boxId : str) (fd : formData) : option item_payload :=
  match trim (name fd) with
  | [] => None
  | _ :: _ =>
      Some {| p_name := name fd; p_quantity := quantity fd;
              p_details := details fd; p_box_id := Some boxId |}
  end.

(** The Save button of the inline editor of [BoxDetail] followed by
    [handleUpdateItem]: the three fields are read from the document and
    put to [/items/:id]. *)
Definition save_edit (name_value quantity_value details_value : str)
  : item_payload :=
  {| p_name := name_value; p_quantity := parseInt quantity_value;
     p_details := details_value; p_box_id := None |}.

(** The invariant of an item record: the quantity is an integer, at
    least one. *)
Definition valid_quantity (n : number) : Prop :=
  match n with
  | Num z => (1 <= z)%Z
  | _ => False
  end.

End Quantity.

(* ================================================================== *)
(** ** The list filters and the fuzzy matcher *)
(* ================================================================== *)

Module Matcher.
Import JS.

Record Box : Type :=
  mk_box { box_id : str; box_name : str;
           box_location : option str; box_description : option str }.

Record Item : Type :=
  mk_item { item_id : str; item_box_id : str; item_name : str;
            item_quantity : Z; item_details : option str }.

(** Property access by key, [box[key]] and [item[key]], for the keys
    given to the matcher; an absent field is [None]. *)
Definition box_field (key : str) (b : Box) : option str :=
  if str_eqb key (lit "name") then Some (box_name b)
  else if str_eqb key (lit "location") then box_location b
  else if str_eqb key (lit "description") then box_description b
  else None.

Definition item_field (key : str) (i : Item) : option str :=
  if str_eqb key (lit "name") then Some (item_name i)
  else if str_eqb key (lit "details") then item_details i
  else None.

(** The options object given to [new Fuse(list, options)]. *)
Record options : Type :=
  mk_options { keys : list str; threshold : Q; minMatchCharLength : nat }.

(** An entry of [fuse.search(pattern)]. *)
Record result (R : Type) : Type :=
  mk_result { item : R; refIndex : nat; score : Q }.
Arguments mk_result {R} item refIndex score.
Arguments item {R} r.
Arguments refIndex {R} r.
Arguments score {R} r.

Definition Qltb (a b : Q) : bool := negb (Qle_bool b a).

Definition Qmin (a b : Q) : Q := if Qle_bool a b then a else b.

(** The order of the result list: ascending score, then ascending
    position in the collection. *)
Definition before {R} (a b : result R) : bool :=
  Qltb (score a) (score b)
  || (Qeq_bool (score a) (score b) && (refIndex a <=? refIndex b)).

Fixpoint insert {R} (x : result R) (l : list (result R)) : list (result R) :=
  match l with
  | [] => [x]
  | y :: l' => if before x y then x :: l else y :: insert x l'
  end.

Definition sort {R} (l : list (result R)) : list (result R) :=
  fold_right insert [] l.

Section Fuse.
Variable R : Type.
Variable field : str -> R -> option str.

(** The dissimilarity of a query and one field value: 0 is a perfect
    match, larger is worse.  The specification only asks that it be
    derived from an edit distance, so the model leaves it open. *)
Variable field_score : str -> str -> Q.

(** The scores of the fields a record has, in the order of the keys. *)
Definition field_scores (o : options) (pattern : str) (r : R) : list Q :=
  flat_map (fun k => match field k r with
                     | Some v => [field_score pattern v]
                     | None => []
                     end) (keys o).

Definition best (l : list Q) : option Q :=
  match l with
  | [] => None
  | s :: l' => Some (fold_left Qmin l' s)
  end.

(** The score of a record: the best (lowest) of its field scores; the
    call sites configure no weights. *)
Definition record_score (o : options) (pattern : str) (r : R) : option Q :=
  best (field_scores o pattern r).

(** The records within the threshold, each with its position. *)
Fixpoint candidates (o : options) (pattern : str) (i : nat) (docs : list R)
  : list (result R) :=
  match docs with
  | [] => []
  | r :: docs' =>
      match record_score o pattern r with
      | Some s =>
          if Qle_bool s (threshold o)
          then mk_result r i s :: candidates o pattern (S i) docs'
          else candidates o pattern (S i) docs'
      | None => candidates o pattern (S i) docs'
      end
  end.

(** Modelled from the spec: [fuse.search(pattern)] of the library
    fuse.js, which the repository imports and does not contain.  Per
    sections 3 and 4.1 and the glossary: every record is scored by its
    best field, a record whose score is above the threshold is left
    out, and the results are in ascending order of score, ties in the
    order of the collection.  [minMatchCharLength] is 1 at both call
    sites, which skips no field. *)
Definition search (o : options) (docs : list R) (pattern : str)
  : list (result R) :=
  sort (candidates o pattern 0 docs).

End Fuse.

Definition box_options : options :=
  {| keys := [lit "name"; lit "location"; lit "description"];
     threshold := 4 # 10;
     minMatchCharLength := 1 |}.

Definition item_options : options :=
  {| keys := [lit "name"; lit "details"];
     threshold := 4 # 10;
     minMatchCharLength := 1 |}.

(** The test of the location filter:
    [box.location?.toLowerCase().includes(locationFilter.toLowerCase())];
    the optional chain gives [undefined], a false value, for a box
    without location. *)
Definition location_matches (locationFilter : str) (box : Box) : bool :=
  match box_location box with
  | Some l => includes (toLowerCase l) (toLowerCase locationFilter)
  | None => false
  end.

Section Filters.
Variable field_score : str -> str -> Q.

(** [filterBoxes]: the value given to [setFilteredBoxes]. *)
Definition filterBoxes (boxes : list Box) (searchTerm locationFilter : str)
  : list Box :=
  let filtered :=
    match searchTerm with
    | [] => boxes
    | _ :: _ =>
        map item (search box_field field_score box_options boxes searchTerm)
    end in
  match locationFilter with
  | [] => filtered
  | _ :: _ => filter (location_matches locationFilter) filtered
  end.

(** [filterItems]: the value given to [setFilteredItems]. *)
Definition filterItems (items : list Item) (searchTerm : str) : list Item :=
  match searchTerm with
  | [] => items
  | _ :: _ =>
      map item (search item_field field_score item_options items searchTerm)
  end.

End Filters.

(** The whole collection with the neutral score 0: the results of a
    search that filters nothing. *)
Fixpoint unscored {R} (i : nat) (docs : list R) : list (result R) :=
  match docs with
  | [] => []
  | r :: docs' => mk_result r i 0%Q :: unscored (S i) docs'
  end.

(** The rank order of results: a score no worse, and on equal scores an
    earlier position in the collection. *)
Definition ranked {R} (a b : result R) : Prop :=
  (score a <= score b)%Q /\ ((score a == score b)%Q -> refIndex a < refIndex b).

(** [f] occurs in [l] up to the case of letters. *)
Definition contains_ci (l f : str) : Prop :=
  exists pre mid post, l = pre ++ mid ++ post /\ toLowerCase mid = toLowerCase f.

(** An empty or whitespace-only query. *)
Definition blank (q : str) : Prop := Quantity.trim q = [].

(** The index of the first occurrence of [p] in [s], counted from [i]. *)
Fixpoint index_from (p s : str) (i : nat) : option nat :=
  if starts_with p s then Some i
  else match s with
       | [] => None
       | _ :: s' => index_from p s' (S i)
       end.

(** Modelled from the spec: section 4.1 on the degenerate query of the
    matcher.  An empty or whitespace-only query is no error and returns
    every record with a neutral (best) score; for the scoring of a
    field this says that such a query scores 0 on every field. *)
Definition neutral_on_blank (field_score : str -> str -> Q) : Prop :=
  forall pattern text, blank pattern -> (field_score pattern text == 0)%Q.

(** A sample scoring function, for the places where the filters are
    run on concrete records.  It is no model of the scores of fuse.js:
    the theorems on the filters are stated for every scoring function.
    It keeps to what the specification says of scores: 0 is a perfect
    match and larger is worse, and a query that is empty or whitespace
    only is neutral, 0 on every field.  Any other query scores 0 on a
    field equal to it up to case, a hundredth per position of its first
    occurrence in the field (and never less than a thousandth), and 1
    when it does not occur. *)
Definition located_score (pattern text : str) : Q :=
  match Quantity.trim pattern with
  | [] => 0%Q
  | _ :: _ =>
      let p := toLowerCase pattern in
      let t := toLowerCase text in
      if str_eqb p t then 0%Q
      else match index_from p t 0 with
           | Some 0 => 1 # 1000
           | Some i => Z.of_nat i # 100
           | None => 1%Q
           end
  end.

(** Sample records. *)
Definition hammer : Item :=
  {| item_id := lit "i1"; item_box_id := lit "b1"; item_name := lit "Hammer";
     item_quantity := 1; item_details := None |}.

Definition far_match : Item :=
  {| item_id := lit "i2"; item_box_id := lit "b1";
     item_name := repeat "x"%char 50 ++ lit "a";
     item_quantity := 1; item_details := None |}.

Definition garage : Box :=
  {| box_id := lit "b1"; box_name := lit "Garage Tools";
     box_location := Some (lit "Garage, left shelf");
     box_description := None |}.

Definition kitchen : Box :=
  {| box_id := lit "b2"; box_name := lit "Kitchen Items";
     box_location := None; box_description := None |}.

End Matcher.

(* ================================================================== *)
(** ** Numbers as text, the box form and direct navigation *)
(* ================================================================== *)

Module JSNumber.
Import JS Quantity.

(** The character of a decimal digit. *)
Definition digit_char (d : Z) : ascii := ascii_of_nat (48 + Z.to_nat d).

(** The decimal digits of a natural number in front of [acc]; [fuel]
    bounds the number of digits. *)
Fixpoint digits (fuel : nat) (n : Z) (acc : str) : str :=
  match fuel with
  | 0 => acc
  | S f =>
      if (n <? 10)%Z then digit_char n :: acc
      else digits f (n / 10) (digit_char (n mod 10) :: acc)
  end.

(** The decimal representation of a natural number; it has no more
    digits than the number has bits. *)
Definition decimal (n : Z) : str := digits (S (Z.to_nat (Z.log2 n))) n [].

(** The decimal [v] is read back as the double [x]. *)
Definition reads_as (x v : Z) : bool :=
  match to_number v with
  | Num y => (y =? x)%Z
  | _ => false
  end.

(** Of the two multiples of [p] next to [x], the one that is read back
    as [x]: the nearer one if both are, and the even multiple if they
    are equally near. *)
Definition nearest_multiple (x p : Z) : option Z :=
  let lo := (x / p * p)%Z in
  let hi := (lo + p)%Z in
  match reads_as x lo, reads_as x hi with
  | true, true =>
      Some (if (x - lo <? hi - x)%Z then lo
            else if (hi - x <? x - lo)%Z then hi
            else if Z.even (x / p) then lo else hi)
  | true, false => Some lo
  | false, true => Some hi
  | false, false => None
  end.

(** The integers n, k and s of [Number::toString] for a double [x] that
    is a natural number, as the decimal s * 10^(n-k): the decimal with
    the fewest significant digits that is read back as [x], and among
    these the nearest to [x], as the language recommends and the
    engines do.  The multiples of 10^j are tried from the largest power
    on; for [j = 0] the decimal is [x] itself. *)
Fixpoint shortest_from (j : nat) (x : Z) : Z :=
  match nearest_multiple x (10 ^ Z.of_nat j) with
  | Some v => v
  | None =>
      match j with
      | 0 => x
      | S j' => shortest_from j' x
      end
  end.

Definition shortest (x : Z) : Z := shortest_from (length (decimal x) - 1) x.

(** A text without its zeros at the end. *)
Fixpoint drop_zeros (s : str) : str :=
  match s with
  | c :: s' => if Ascii.eqb c "0"%char then drop_zeros s' else s
  | [] => []
  end.

Definition significant (ds : str) : str := rev (drop_zeros (rev ds)).

(** [Number::toString] in radix 10 for a double that is a natural
    number: up to 21 digits are written out, and a longer decimal is
    written with an exponent. *)
Definition natural_to_string (x : Z) : str :=
  let ds := decimal (shortest x) in
  let n := length ds in
  if n <=? 21 then ds
  else
    match significant ds with
    | [] => []
    | d :: [] => d :: lit "e+" ++ decimal (Z.of_nat (n - 1))
    | d :: more => d :: "."%char :: more ++ lit "e+" ++ decimal (Z.of_nat (n - 1))
    end.

(** [Number::toString] in radix 10. *)
Definition to_string (x : number) : str :=
  match x with
  | NaN => lit "NaN"
  | NegZero => lit "0"
  | Infinity negative => if negative then lit "-Infinity" else lit "Infinity"
  | Num z =>
      if (z <? 0)%Z then "-"%char :: natural_to_string (- z)
      else natural_to_string z
  end.

(** [String(n)] and [n.toString()] for a number field that holds the
    integer [z], that is, its Number value. *)
Definition number_to_string (z : Z) : str := to_string (to_number z).

(** A decimal digit. *)
Definition is_dec (c : ascii) : bool :=
  let n := nat_of_ascii c in (48 <=? n) && (n <=? 57).

(** The characters in the text of a number. *)
Definition is_number_char (c : ascii) : bool :=
  is_dec c || existsb (Ascii.eqb c) (lit "-+.eInfinityNaN").

End JSNumber.

Module Forms.
Import JS Quantity.

(** The form data of [CreateBoxModal]. *)
Record boxForm : Type :=
  mk_box_form { b_name : str; b_location : str; b_description : str }.

(** [handleSubmit] of [CreateBoxModal] followed by [handleCreateBox]:
    the form data is posted to [/boxes] when the name is not blank. *)
Definition submit_create (fd : boxForm) : option boxForm :=
  match trim (b_name fd) with
  | [] => None
  | _ :: _ => Some fd
  end.

(** The value the browser shows in the quantity field of the inline
    editor, [defaultValue={item.quantity}], before the user changes it. *)
Definition default_quantity_value (q : Z) : str := JSNumber.number_to_string q.

(** A text of whitespace only. *)
Definition all_white (s : str) : Prop := Forall (fun c => is_white c = true) s.

(** The text at which [parseInt] stops reading digits: the end, or a
    character that is no digit and not the [x] of a hexadecimal prefix. *)
Definition stops_number (tail : str) : Prop :=
  match tail with
  | [] => True
  | c :: _ =>
      JSNumber.is_dec c = false /\ c <> "x"%char /\ c <> "X"%char
  end.

End Forms.

Module Nav.
Import JS Codec.

(** The state of [Navigation] that the direct entry form touches: the
    interface state of the scanner model and the text of the entry. *)
Record nav : Type := mk_nav { ui_state : ui; directBoxId : str }.

(** [handleDirectNavigation]: a non-blank entry navigates to the box of
    the trimmed text and clears the entry. *)
Definition handleDirectNavigation (st : nav) : nav :=
  match Quantity.trim (directBoxId st) with
  | [] => st
  | c :: t =>
      {| ui_state := navigate (marker ++ c :: t) (ui_state st);
         directBoxId := [] |}
  end.

End Nav.

(* ================================================================== *)
(** ** The CSV export *)
(* ================================================================== *)

Module Csv.
Import JS.

(** The values found in an export row: those the exports put there, and
    the two kinds of value that any object inherits. *)
Inductive value : Type :=
| VStr (s : str)
| VNum (z : Z)
| VUndefined
| VFunction (name : str)
| VPrototype.

(** A plain object, as an object literal builds it, by its own
    properties in insertion order: the keys are distinct and none is an
    array index, as in the rows the exports build. *)
Definition row : Type := list (str * value).

(** The functions of [Object.prototype] whose property key is their
    name. *)
Definition prototype_functions : list str :=
  [ lit "hasOwnProperty"; lit "isPrototypeOf"; lit "propertyIsEnumerable";
    lit "toLocaleString"; lit "toString"; lit "valueOf";
    lit "__defineGetter__"; lit "__defineSetter__";
    lit "__lookupGetter__"; lit "__lookupSetter__" ].

(** What a plain object inherits under a key: [Object.prototype] holds
    the function [Object] as [constructor], itself under the accessor
    [__proto__], and the functions above. *)
Definition inherited (k : str) : value :=
  if str_eqb k (lit "constructor") then VFunction (lit "Object")
  else if str_eqb k (lit "__proto__") then VPrototype
  else if existsb (str_eqb k) prototype_functions then VFunction k
  else VUndefined.

(** [row[header]]: the row's own property, else what the prototype
    chain gives, else [undefined]. *)
Fixpoint get (k : str) (r : row) : value :=
  match r with
  | [] => inherited k
  | (k', v) :: r' => if str_eqb k k' then v else get k r'
  end.

Definition dquote : ascii := ascii_of_nat 34.
Definition comma : ascii := ","%char.
Definition newline : ascii := ascii_of_nat 10.

(** The inner callback of [convertToCSV]: a string with a comma is put
    between double quotes, every other value is passed on. *)
Definition cell (v : value) : value :=
  match v with
  | VStr s => if includes s [comma] then VStr (dquote :: s ++ [dquote]) else v
  | _ => v
  end.

(** An element as [Array.prototype.join] prints it: [undefined] is the
    empty string.  The text of a built-in function is written as V8
    and JavaScriptCore write it; engines differ in its white space. *)
Definition join_elem (v : value) : str :=
  match v with
  | VStr s => s
  | VNum z => JSNumber.number_to_string z
  | VUndefined => []
  | VFunction name => lit "function " ++ name ++ lit "() { [native code] }"
  | VPrototype => lit "[object Object]"
  end.

(** [Array.prototype.join] on strings. *)
Fixpoint join (sep : str) (l : list str) : str :=
  match l with
  | [] => []
  | x :: l' =>
      match l' with
      | [] => x
      | _ :: _ => x ++ sep ++ join sep l'
      end
  end.

(** One line of the export: the row's values under the headers. *)
Definition row_line (headers : list str) (r : row) : str :=
  join [comma] (map (fun h => join_elem (cell (get h r))) headers).

(** [convertToCSV]. *)
Definition convertToCSV (data : list row) : str :=
  match data with
  | [] => []
  | first :: _ =>
      let headers := map fst first in
      let csvHeaders := join [comma] headers in
      let csvRows := map (row_line headers) data in
      join [newline] (csvHeaders :: csvRows)
  end.

(** A record with the creation date the server sends along. *)
Record dated (A : Type) : Type :=
  mk_dated { record : A; item_count : value; created_at : str }.
Arguments mk_dated {A} record item_count created_at.
Arguments record {A} d.
Arguments item_count {A} d.
Arguments created_at {A} d.

(** [a || ''] for an optional string. *)
Definition or_empty (o : option str) : str :=
  match o with Some s => s | None => [] end.

Section Exports.
(** [formatDate], which prints a date in the locale of the browser. *)
Variable formatDate : str -> str.

(** The export row of a box in [exportBoxesToCSV]. *)
Definition box_row (b : dated Matcher.Box) : row :=
  [ (lit "ID", VStr (Matcher.box_id (record b)));
    (lit "Name", VStr (Matcher.box_name (record b)));
    (lit "Location", VStr (or_empty (Matcher.box_location (record b))));
    (lit "Description", VStr (or_empty (Matcher.box_description (record b))));
    (lit "Item Count", item_count b);
    (lit "Created At", VStr (formatDate (created_at b))) ].

(** The export row of an item in [exportToCSV]. *)
Definition item_row (i : dated Matcher.Item) : row :=
  [ (lit "Item Name", VStr (Matcher.item_name (record i)));
    (lit "Quantity", VNum (Matcher.item_quantity (record i)));
    (lit "Details", VStr (or_empty (Matcher.item_details (record i))));
    (lit "Added Date", VStr (formatDate (created_at i))) ].

(** [exportBoxesToCSV]: the file name and the text given to the
    download. *)
Definition exportBoxesToCSV (boxes : list (dated Matcher.Box)) : str * str :=
  (lit "boxes_export.csv", convertToCSV (map box_row boxes)).

(** [exportToCSV] of [BoxDetail]. *)
Definition exportToCSV (box : Matcher.Box) (items : list (dated Matcher.Item))
  : str * str :=
  (Matcher.box_name box ++ lit "_items.csv", convertToCSV (map item_row items)).

End Exports.

(** A value of the exports whose text holds no [c]; nothing is said
    of the text of an inherited function or object. *)
Definition value_free (c : ascii) (v : value) : Prop :=
  match v with
  | VStr s => ~ In c s
  | VNum _ | VUndefined => True
  | VFunction _ | VPrototype => False
  end.

(** Data whose headers and values hold no [c]. *)
Definition data_free (c : ascii) (headers : list str) (data : list row) : Prop :=
  (forall h, In h headers -> ~ In c h) /\
  (forall r h, In r data -> In h headers -> value_free c (get h r)).

End Csv.

(* ================================================================== *)
(** ** Facts about strings *)
(* ================================================================== *)

Module JSFacts.
Import JS.

Lemma str_eqb_eq (a b : str) : str_eqb a b = true <-> a = b.
Proof.
  unfold str_eqb. destruct (list_eq_dec ascii_dec a b); split; congruence.
Qed.

Lemma str_eqb_refl (a : str) : str_eqb a a = true.
Proof. now apply str_eqb_eq. Qed.

Lemma starts_with_app (p s : str) : starts_with p (p ++ s) = true.
Proof.
  induction p as [|a p IH]; simpl; [reflexivity|].
  now rewrite Ascii.eqb_refl, IH.
Qed.

Lemma starts_with_iff (p s : str) :
  starts_with p s = true <-> exists t, s = p ++ t.
Proof.
  split.
  - revert s. induction p as [|a p IH]; intros s H.
    + now exists s.
    + destruct s as [|b s]; simpl in H; [discriminate|].
      apply andb_true_iff in H. destruct H as [Hab H].
      apply Ascii.eqb_eq in Hab. subst b.
      destruct (IH _ H) as [t ->]. now exists t.
  - intros [t ->]. apply starts_with_app.
Qed.

Lemma starts_with_skipn (p s : str) :
  starts_with p s = true -> s = p ++ skipn (length p) s.
Proof.
  intros H. apply starts_with_iff in H. destruct H as [t ->].
  now rewrite skipn_app, skipn_all, Nat.sub_diag.
Qed.

Lemma includes_head (s p : str) :
  starts_with p s = true -> includes s p = true.
Proof. intros H. destruct s; simpl; rewrite H; reflexivity. Qed.

Lemma includes_cons (c : ascii) (s p : str) :
  includes s p = true -> includes (c :: s) p = true.
Proof. intros H. simpl. rewrite H. apply orb_true_r. Qed.

Lemma includes_iff (s p : str) :
  includes s p = true <-> exists a b, s = a ++ p ++ b.
Proof.
  split.
  - induction s as [|c s IH]; simpl; intros H.
    + rewrite orb_false_r in H. apply starts_with_iff in H.
      destruct H as [t Ht]. now exists [], t.
    + apply orb_true_iff in H. destruct H as [H|H].
      * apply starts_with_iff in H. destruct H as [t Ht]. now exists [], t.
      * destruct (IH H) as (a & b & ->). now exists (c :: a), b.
  - intros (a & b & ->). induction a as [|c a IH].
    + simpl app. apply includes_head, starts_with_app.
    + simpl app. now apply includes_cons.
Qed.

Lemma break_at_some (sep s pre rest : str) :
  break_at sep s = Some (pre, rest) ->
  s = pre ++ sep ++ rest /\ first_at sep pre rest.
Proof.
  revert pre rest. induction s as [|c s IH]; intros pre rest; simpl.
  - destruct (starts_with sep []) eqn:E; [|discriminate].
    intros [= <- <-]. split.
    + simpl. rewrite (starts_with_skipn _ _ E) at 1. reflexivity.
    + intros k Hk. inversion Hk.
  - destruct (starts_with sep (c :: s)) eqn:E.
    + intros [= <- <-]. split.
      * simpl. rewrite (starts_with_skipn _ _ E) at 1. reflexivity.
      * intros k Hk. inversion Hk.
    + destruct (break_at sep s) as [[pre' rest']|] eqn:B; [|discriminate].
      intros [= <- <-]. destruct (IH _ _ eq_refl) as [-> F]. split.
      * reflexivity.
      * intros k Hk. unfold occurs_at. destruct k as [|k]; simpl.
        -- simpl in E. rewrite E. discriminate.
        -- apply F. simpl in Hk. lia.
Qed.

Lemma break_at_head (sep s : str) :
  starts_with sep s = true -> break_at sep s = Some ([], skipn (length sep) s).
Proof. intros H. destruct s; simpl; rewrite H; reflexivity. Qed.

Lemma break_at_first (sep pre rest : str) :
  first_at sep pre rest ->
  break_at sep (pre ++ sep ++ rest) = Some (pre, rest).
Proof.
  induction pre as [|c pre IH]; intros F.
  - simpl app. rewrite break_at_head by apply starts_with_app.
    now rewrite skipn_app, skipn_all, Nat.sub_diag.
  - simpl app. simpl break_at.
    destruct (starts_with sep (c :: pre ++ sep ++ rest)) eqn:E.
    + exfalso. apply (F 0); [simpl; lia|]. exact E.
    + rewrite IH; [reflexivity|].
      intros k Hk. apply (F (S k)). simpl. lia.
Qed.

Lemma break_at_none (sep s : str) :
  break_at sep s = None <-> includes s sep = false.
Proof.
  induction s as [|c s IH]; simpl.
  - destruct (starts_with sep []); simpl; split; congruence.
  - destruct (starts_with sep (c :: s)); simpl.
    + split; congruence.
    + rewrite <- IH. destruct (break_at sep s) as [[? ?]|]; split; congruence.
Qed.

Lemma break_at_shorter (sep s pre rest : str) :
  sep <> [] -> break_at sep s = Some (pre, rest) -> length rest < length s.
Proof.
  intros Hsep H. apply break_at_some in H. destruct H as [-> _].
  rewrite !length_app. destruct sep; [congruence|simpl; lia].
Qed.

(** The bound of the loop is never the reason it stops: any two bounds
    above the length of the text give the same pieces. *)
Lemma split_loop_fuel (sep : str) :
  sep <> [] ->
  forall n m s, length s < n -> length s < m ->
                split_loop n sep s = split_loop m sep s.
Proof.
  intros Hsep. induction n as [|n IH]; intros m s Hn Hm; [inversion Hn|].
  destruct m as [|m]; [inversion Hm|]. simpl.
  destruct (break_at sep s) as [[pre rest]|] eqn:B; [|reflexivity].
  f_equal. pose proof (break_at_shorter _ Hsep B). apply IH; lia.
Qed.

(** The second element of [split]: what lies between the first
    separator and the next one. *)
Lemma split_second (sep pre rest : str) :
  sep <> [] -> first_at sep pre rest ->
  index_str (split (pre ++ sep ++ rest) sep) 1 =
  match break_at sep rest with
  | Some (mid, _) => mid
  | None => rest
  end.
Proof.
  intros Hsep F. unfold split. destruct sep as [|c0 sep0] eqn:Es; [congruence|].
  rewrite <- Es in *. clear Hsep.
  assert (L : exists n, length (pre ++ sep ++ rest) = S n).
  { rewrite !length_app, Es. simpl.
    exists (length pre + (length sep0 + length rest)). lia. }
  destruct L as [n ->]. simpl split_loop. rewrite (break_at_first F).
  unfold index_str. simpl nth.
  destruct (break_at sep rest) as [[mid post]|]; reflexivity.
Qed.

End JSFacts.

(* ================================================================== *)
(** ** The codec: recognisers, extraction and round trip *)
(* ================================================================== *)

Module CodecFacts.
Import JS JSFacts Codec.

Lemma take_hex_some (n : nat) (s r : str) :
  take_hex n s = Some r -> exists g, s = g ++ r /\ hex_group n g.
Proof.
  revert s. induction n as [|n IH]; intros s; simpl.
  - intros [= ->]. exists []. repeat split. constructor.
  - destruct s as [|c s]; [discriminate|].
    destruct (is_hex c) eqn:E; [|discriminate]. intros H.
    destruct (IH _ H) as (g & -> & L & F).
    exists (c :: g). repeat split; simpl; [congruence|now constructor].
Qed.

Lemma take_hex_app (n : nat) (g r : str) :
  hex_group n g -> take_hex n (g ++ r) = Some r.
Proof.
  intros [L F]. subst n. induction F as [|c g Hc F IH]; simpl.
  - reflexivity.
  - now rewrite Hc.
Qed.

Lemma take_dash_some (s r : str) :
  take_dash s = Some r <-> s = lit "-" ++ r.
Proof.
  unfold take_dash. destruct s as [|c s]; simpl.
  - split; discriminate.
  - destruct (Ascii.eqb_spec c "-"%char) as [->|N]; split.
    + now intros [= ->].
    + now intros [= ->].
    + discriminate.
    + intros [= E _]. contradiction.
Qed.

Ltac step_group H :=
  match type of H with
  | context [and_then (take_hex ?n ?s) _] =>
      let E := fresh "E" in
      destruct (take_hex n s) as [?s|] eqn:E; cbn [and_then] in H;
      [|discriminate];
      apply take_hex_some in E; destruct E as (?g & -> & ?G)
  end.

Ltac step_dash H :=
  match type of H with
  | context [and_then (take_dash ?s) _] =>
      let E := fresh "E" in
      destruct (take_dash s) as [?s|] eqn:E; cbn [and_then] in H;
      [|discriminate];
      apply take_dash_some in E; subst
  end.

(** The regular expression of the scanner accepts exactly the strings
    of the identifier shape. *)
Lemma uuid_match_iff (s : str) : uuid_match s = true <-> uuid_shape s.
Proof.
  split.
  - unfold uuid_match. intros H.
    step_group H. step_dash H. step_group H. step_dash H.
    step_group H. step_dash H. step_group H. step_dash H.
    destruct (take_hex 12 _) as [[|? ?]|] eqn:E; try discriminate.
    apply take_hex_some in E. destruct E as (g5 & -> & G5).
    exists g, g0, g1, g2, g5. rewrite app_nil_r. repeat split; try apply G;
      try apply G0; try apply G1; try apply G2; try apply G5.
  - intros (g1 & g2 & g3 & g4 & g5 & -> & G1 & G2 & G3 & G4 & G5).
    unfold uuid_match.
    assert (D : forall r, take_dash (lit "-" ++ r) = Some r) by reflexivity.
    rewrite (take_hex_app _ G1); cbn [and_then]; rewrite D; cbn [and_then].
    rewrite (take_hex_app _ G2); cbn [and_then]; rewrite D; cbn [and_then].
    rewrite (take_hex_app _ G3); cbn [and_then]; rewrite D; cbn [and_then].
    rewrite (take_hex_app _ G4); cbn [and_then]; rewrite D; cbn [and_then].
    rewrite <- (app_nil_r g5), (take_hex_app _ G5). reflexivity.
Qed.

Lemma marker_nonempty : marker <> [].
Proof. discriminate. Qed.

Lemma decode_at_first_marker (pre rest : str) :
  first_at marker pre rest ->
  decode (pre ++ marker ++ rest) =
  Some match break_at marker rest with
       | Some (mid, _) => mid
       | None => rest
       end.
Proof.
  intros F. unfold decode.
  assert (I : includes (pre ++ marker ++ rest) marker = true)
    by (apply includes_iff; now exists pre, rest).
  rewrite I. f_equal. apply split_second; [apply marker_nonempty|exact F].
Qed.

Lemma first_marker (text : str) :
  includes text marker = true ->
  exists pre rest, text = pre ++ marker ++ rest /\ first_at marker pre rest.
Proof.
  intros I. destruct (break_at marker text) as [[pre rest]|] eqn:B.
  - exists pre, rest. now apply break_at_some.
  - apply break_at_none in B. congruence.
Qed.

(** The handler navigates exactly when [decode] yields a candidate. *)
Lemma onScanSuccess_decode (text : str) (st : ui) :
  onScanSuccess text st =
  {| path := match decode text with
             | Some id => marker ++ id
             | None => path st
             end;
     showScanner := false |}.
Proof.
  unfold onScanSuccess, decode.
  destruct (includes text marker); [reflexivity|].
  destruct (uuid_match text); reflexivity.
Qed.

(** C9, amended (implicit): the locator recogniser is split-based.
    For a scanned text that contains the marker [/box/], the candidate
    identifier is what stands between the first occurrence of the
    marker and the next occurrence that starts after the first has
    ended; it is the whole remainder exactly when the remainder holds
    no marker.  An occurrence that shares its slash with the first one
    is no split point. *)
Theorem locator_extraction_is_split_based (text : str) :
  includes text marker = true ->
  exists pre rest,
    text = pre ++ marker ++ rest /\ first_at marker pre rest /\
    ((includes rest marker = false /\ decode text = Some rest) \/
     (exists mid post,
        rest = mid ++ marker ++ post /\ first_at marker mid post /\
        decode text = Some mid)).
Proof.
  intros I. destruct (first_marker _ I) as (pre & rest & -> & F).
  exists pre, rest. repeat split; [exact F|].
  rewrite (decode_at_first_marker F).
  destruct (break_at marker rest) as [[mid post]|] eqn:B.
  - right. exists mid, post. apply break_at_some in B. now destruct B.
  - left. split; [now apply break_at_none|reflexivity].
Qed.

Lemma locator_extraction_witness :
  includes (lit "http://h/box/abc/box/def") marker = true /\
  exists pre rest,
    lit "http://h/box/abc/box/def" = pre ++ marker ++ rest /\
    first_at marker pre rest /\
    ((includes rest marker = false /\
      decode (lit "http://h/box/abc/box/def") = Some rest) \/
     (exists mid post,
        rest = mid ++ marker ++ post /\ first_at marker mid post /\
        decode (lit "http://h/box/abc/box/def") = Some mid)).
Proof.
  split; [reflexivity|].
  apply (locator_extraction_is_split_based (lit "http://h/box/abc/box/def")).
  reflexivity.
Defined.

(** C9, as stated, fails: in the locator of a host named [box] the
    marker occurs twice, at the indices 6 and 10, and the two
    occurrences share a slash.  The text between them is empty, yet the
    candidate is the whole remainder after the first occurrence, which
    is not empty and holds no marker. *)
Lemma overlapping_marker_is_no_split_point :
  occurs_at marker (qr_url (lit "http://box") sample_id) 6 /\
  occurs_at marker (qr_url (lit "http://box") sample_id) 10 /\
  (forall k, k < 6 -> ~ occurs_at marker (qr_url (lit "http://box") sample_id) k) /\
  substring_between 6 10 (qr_url (lit "http://box") sample_id) = [] /\
  decode (qr_url (lit "http://box") sample_id)
  = Some (skipn 11 (qr_url (lit "http://box") sample_id)) /\
  skipn 11 (qr_url (lit "http://box") sample_id) = lit "box/" ++ sample_id /\
  includes (skipn 11 (qr_url (lit "http://box") sample_id)) marker = false /\
  decode (qr_url (lit "http://box") sample_id)
  <> Some (substring_between 6 10 (qr_url (lit "http://box") sample_id)).
Proof.
  split; [reflexivity|]. split; [reflexivity|]. split.
  - intros k Hk.
    assert (C : k = 0 \/ k = 1 \/ k = 2 \/ k = 3 \/ k = 4 \/ k = 5) by lia.
    unfold occurs_at.
    destruct C as [->|[->|[->|[->|[->| ->]]]]]; discriminate.
  - repeat split; try reflexivity. discriminate.
Qed.

(** C4, as stated, fails: a text that neither recogniser accepts is
    rejected without navigation, yet the handler changes the state of
    the interface, since it closes the scanner dialog. *)
Lemma rejected_scan_changes_state :
  decode (lit "completely-unrelated-text") = None /\
  onScanSuccess (lit "completely-unrelated-text")
    {| path := lit "/"; showScanner := true |}
  <> {| path := lit "/"; showScanner := true |}.
Proof. split; [reflexivity|discriminate]. Qed.

(** C4, amended: the handler tries the locator recogniser first (a text
    containing the marker yields an identifier that follows the first
    marker), then the bare identifier recogniser (a text of the
    identifier shape yields itself); when neither applies there is no
    navigation.  Nothing is thrown, and in every case the scanner dialog
    is closed. *)
Theorem scan_recognizers_in_order (text : str) (st : ui) :
  showScanner (onScanSuccess text st) = false /\
  (contains text marker ->
   exists id pre rest tail,
     text = pre ++ marker ++ rest /\ first_at marker pre rest /\
     rest = id ++ tail /\
     decode text = Some id /\ path (onScanSuccess text st) = marker ++ id) /\
  (~ contains text marker -> uuid_shape text ->
   decode text = Some text /\ path (onScanSuccess text st) = marker ++ text) /\
  (~ contains text marker -> ~ uuid_shape text ->
   decode text = None /\ path (onScanSuccess text st) = path st).
Proof.
  rewrite onScanSuccess_decode. simpl. split; [reflexivity|].
  split; [|split].
  - intros C. apply includes_iff in C.
    destruct (first_marker _ C) as (pre & rest & -> & F).
    rewrite (decode_at_first_marker F).
    destruct (break_at marker rest) as [[mid post]|] eqn:B.
    + apply break_at_some in B. destruct B as [E _].
      exists mid, pre, rest, (marker ++ post). now repeat split.
    + exists rest, pre, rest, []. rewrite app_nil_r. now repeat split.
  - intros NC U. unfold decode.
    destruct (includes text marker) eqn:I.
    + apply includes_iff in I. contradiction.
    + apply uuid_match_iff in U. rewrite U. now split.
  - intros NC NU. unfold decode.
    destruct (includes text marker) eqn:I.
    + apply includes_iff in I. contradiction.
    + destruct (uuid_match text) eqn:U.
      * apply uuid_match_iff in U. contradiction.
      * now split.
Qed.

Lemma starts_with_marker_slash (c : ascii) (s : str) :
  Ascii.eqb c "/" = false -> starts_with marker (c :: s) = false.
Proof.
  intros H. unfold marker. cbn [lit list_ascii_of_string starts_with].
  now rewrite Ascii.eqb_sym, H.
Qed.

(** Scanning for the marker walks over a text without slash. *)
Lemma break_at_slash_free (a t : str) :
  slash_free a = true ->
  break_at marker (a ++ t) =
  match break_at marker t with
  | Some (pre, rest) => Some (a ++ pre, rest)
  | None => None
  end.
Proof.
  unfold slash_free. induction a as [|c a IH]; intros H.
  - simpl. now destruct (break_at marker t) as [[? ?]|].
  - simpl in H. apply andb_true_iff in H. destruct H as [Hc Ha].
    apply negb_true_iff in Hc.
    cbn [app break_at]. rewrite (starts_with_marker_slash c (a ++ t) Hc), (IH Ha).
    now destruct (break_at marker t) as [[? ?]|].
Qed.

Lemma slash_free_no_marker (a : str) :
  slash_free a = true -> includes a marker = false.
Proof.
  intros H. apply break_at_none. rewrite <- (app_nil_r a).
  now rewrite (break_at_slash_free a [] H).
Qed.

Lemma hex_not_slash (c : ascii) :
  is_hex c = true -> negb (Ascii.eqb c "/") = true.
Proof. destruct c as [[] [] [] [] [] [] [] []]; intros H; try reflexivity; discriminate. Qed.

Lemma hex_group_slash_free (n : nat) (g : str) :
  hex_group n g -> slash_free g = true.
Proof.
  intros [_ F]. unfold slash_free. apply forallb_forall.
  rewrite Forall_forall in F. intros c Hc. now apply hex_not_slash, F.
Qed.

Lemma uuid_slash_free (id : str) : uuid_match id = true -> slash_free id = true.
Proof.
  intros H. apply uuid_match_iff in H.
  destruct H as (g1 & g2 & g3 & g4 & g5 & -> & G1 & G2 & G3 & G4 & G5).
  unfold slash_free. rewrite !forallb_app.
  fold (slash_free g1) (slash_free g2) (slash_free g3) (slash_free g4)
       (slash_free g5).
  rewrite (hex_group_slash_free G1), (hex_group_slash_free G2),
    (hex_group_slash_free G3), (hex_group_slash_free G4),
    (hex_group_slash_free G5).
  reflexivity.
Qed.

(** Right after [://], the marker can only start if the host is [box]. *)
Lemma host_not_box (host t : str) :
  slash_free host = true -> host <> lit "box" ->
  starts_with marker ("/"%char :: host ++ marker ++ t) = false.
Proof.
  unfold slash_free, marker. intros S N.
  cbn [lit list_ascii_of_string starts_with]. rewrite Ascii.eqb_refl.
  cbn [andb].
  destruct host as [|a [|b [|c [|d host]]]]; cbn [app starts_with].
  - reflexivity.
  - destruct (Ascii.eqb "b" a); reflexivity.
  - destruct (Ascii.eqb "b" a); [|reflexivity].
    destruct (Ascii.eqb "o" b); reflexivity.
  - destruct (Ascii.eqb_spec "b" a) as [<-|]; [|reflexivity].
    destruct (Ascii.eqb_spec "o" b) as [<-|]; [|reflexivity].
    destruct (Ascii.eqb_spec "x" c) as [<-|]; [|reflexivity].
    exfalso. now apply N.
  - cbn [forallb] in S. rewrite !andb_true_iff in S.
    destruct S as (_ & _ & _ & Sd & _). apply negb_true_iff in Sd.
    rewrite (Ascii.eqb_sym "/" d), Sd, !andb_false_r. reflexivity.
Qed.

(** The round trip of the codec holds for every origin whose host is
    not [box]: the locator of a valid identifier decodes to it. *)
Lemma round_trip_unless_host_is_box (scheme host id : str) :
  slash_free scheme = true -> slash_free host = true ->
  host <> lit "box" -> uuid_match id = true ->
  decode (qr_url (scheme ++ lit "://" ++ host) id) = Some id.
Proof.
  intros Ss Sh N U.
  assert (B : break_at marker (qr_url (scheme ++ lit "://" ++ host) id)
              = Some (scheme ++ lit "://" ++ host, id)).
  { unfold qr_url. rewrite <- !app_assoc.
    rewrite (break_at_slash_free scheme _ Ss).
    change (lit "://" ++ host ++ marker ++ id)
      with (":"%char :: "/"%char :: "/"%char :: host ++ marker ++ id).
    cbn [break_at].
    rewrite (starts_with_marker_slash ":"%char _ eq_refl).
    replace (starts_with marker ("/"%char :: "/"%char :: host ++ marker ++ id))
      with false by reflexivity.
    rewrite (host_not_box id Sh N).
    rewrite (break_at_slash_free host _ Sh).
    rewrite break_at_head by apply starts_with_app.
    rewrite skipn_app, skipn_all, Nat.sub_diag, app_nil_r. reflexivity. }
  apply break_at_some in B. destruct B as [E F].
  unfold qr_url in *. rewrite (decode_at_first_marker F).
  assert (I : break_at marker id = None)
    by (apply break_at_none, slash_free_no_marker, uuid_slash_free, U).
  now rewrite I.
Qed.

Lemma is_origin_parts (origin : str) :
  is_origin origin = true ->
  exists scheme host,
    origin = scheme ++ lit "://" ++ host /\
    slash_free scheme = true /\ slash_free host = true.
Proof.
  unfold is_origin. destruct (break_at (lit "://") origin) as [[scheme host]|] eqn:B;
    [|discriminate].
  rewrite !andb_true_iff. intros [[_ Ss] Sh].
  apply break_at_some in B. destruct B as [-> _]. now exists scheme, host.
Qed.

Lemma round_trip_for_origin (origin id : str) :
  is_origin origin = true ->
  (forall scheme, origin <> scheme ++ lit "://box") ->
  uuid_match id = true ->
  decode (qr_url origin id) = Some id.
Proof.
  intros O N U. destruct (is_origin_parts _ O) as (scheme & host & -> & Ss & Sh).
  apply round_trip_unless_host_is_box; try assumption.
  intros ->. now apply (N scheme).
Qed.

(** C1 fails on the code: served from a host named [box], the locator
    of a valid identifier decodes to [box/] followed by the identifier,
    because the first [/box/] of [http://box/box/...] starts inside the
    origin. *)
Theorem round_trip_fails_on_host_box :
  is_origin (lit "http://box") = true /\
  uuid_match sample_id = true /\
  qr_url (lit "http://box") sample_id
  = lit "http://box/box/123e4567-e89b-12d3-a456-426614174000" /\
  decode (qr_url (lit "http://box") sample_id)
  = Some (lit "box/123e4567-e89b-12d3-a456-426614174000") /\
  decode (qr_url (lit "http://box") sample_id) <> Some sample_id.
Proof. repeat split; try reflexivity. discriminate. Qed.

End CodecFacts.

(* ================================================================== *)
(** ** Item quantities *)
(* ================================================================== *)

Module QuantityFacts.
Import JS Quantity.

(** The guard of the add form: whatever is typed, the quantity kept in
    the form is a true value, neither [NaN] nor a zero. *)
Lemma change_quantity_truthy (value : str) (fd : formData) :
  truthy (quantity (change_quantity value fd)) = true.
Proof.
  unfold change_quantity, or_else. simpl.
  destruct (truthy (parseInt value)) eqn:E; [exact E|reflexivity].
Qed.

(** C8 fails on the code: the inline editor sends [parseInt] of the
    typed text as it is, so the quantities 0, -3 and [NaN] reach the
    persistence layer, while the add form replaces 0 and [NaN] by 1. *)
Theorem save_edit_sends_invalid_quantity :
  p_quantity (save_edit (lit "Hammer") (lit "0") (lit "")) = Num 0 /\
  ~ valid_quantity (p_quantity (save_edit (lit "Hammer") (lit "0") (lit ""))) /\
  p_quantity (save_edit (lit "Hammer") (lit "-3") (lit "")) = Num (-3) /\
  p_quantity (save_edit (lit "Hammer") (lit "") (lit "")) = NaN /\
  quantity (change_quantity (lit "0") initial_form) = Num 1 /\
  quantity (change_quantity (lit "") initial_form) = Num 1.
Proof.
  repeat split; try reflexivity. simpl. lia.
Qed.

(** The add form keeps a negative number as typed; only the [min]
    attribute of the input, checked by the browser, stands in its way. *)
Lemma change_quantity_keeps_negative :
  quantity (change_quantity (lit "-3") initial_form) = Num (-3).
Proof. reflexivity. Qed.

End QuantityFacts.

(* ================================================================== *)
(** ** The matcher: threshold, order and the location filter *)
(* ================================================================== *)

Module MatcherFacts.
Import JS JSFacts Matcher.

Lemma Qltb_iff (a b : Q) : Qltb a b = true <-> (a < b)%Q.
Proof.
  unfold Qltb. rewrite negb_true_iff. split.
  - intros H. apply Qnot_le_lt. intros L. apply Qle_bool_iff in L. congruence.
  - intros H. destruct (Qle_bool b a) eqn:E; [|reflexivity].
    apply Qle_bool_iff in E. lra.
Qed.

Lemma before_iff {R} (a b : result R) :
  before a b = true <->
  (score a < score b)%Q \/ ((score a == score b)%Q /\ refIndex a <= refIndex b).
Proof.
  unfold before. rewrite orb_true_iff, andb_true_iff, Qltb_iff,
    Qeq_bool_iff, Nat.leb_le. reflexivity.
Qed.

Lemma before_total {R} (a b : result R) :
  before a b = false -> before b a = true.
Proof.
  intros H. apply before_iff.
  destruct (Qlt_le_dec (score b) (score a)) as [L|L]; [now left|].
  destruct (Qlt_le_dec (score a) (score b)) as [L'|L'].
  - assert (before a b = true) by (apply before_iff; now left). congruence.
  - right. split; [lra|].
    destruct (Nat.le_gt_cases (refIndex a) (refIndex b)) as [I|I]; [|lia].
    assert (before a b = true) by (apply before_iff; right; split; [lra|lia]).
    congruence.
Qed.

Lemma before_trans {R} (a b c : result R) :
  before a b = true -> before b c = true -> before a c = true.
Proof.
  rewrite !before_iff. intros [H1|[H1 I1]] [H2|[H2 I2]].
  - left. lra.
  - left. lra.
  - left. lra.
  - right. split; [lra|lia].
Qed.

Lemma insert_perm {R} (x : result R) (l : list (result R)) :
  Permutation (insert x l) (x :: l).
Proof.
  induction l as [|y l IH]; simpl; [reflexivity|].
  destruct (before x y); [reflexivity|].
  rewrite IH. apply perm_swap.
Qed.

Lemma sort_perm {R} (l : list (result R)) : Permutation (sort l) l.
Proof.
  induction l as [|x l IH]; simpl; [reflexivity|].
  rewrite insert_perm. now constructor.
Qed.

Lemma insert_sorted {R} (x : result R) (l : list (result R)) :
  StronglySorted (fun a b => before a b = true) l ->
  StronglySorted (fun a b => before a b = true) (insert x l).
Proof.
  induction 1 as [|y l S IH F]; simpl.
  - repeat constructor.
  - destruct (before x y) eqn:E.
    + constructor; [now constructor|]. constructor; [exact E|].
      eapply Forall_impl; [|exact F]. intros z. now apply before_trans.
    + constructor; [exact IH|].
      apply (Permutation_Forall (Permutation_sym (insert_perm x l))).
      constructor; [now apply before_total|exact F].
Qed.

Lemma sort_sorted {R} (l : list (result R)) :
  StronglySorted (fun a b => before a b = true) (sort l).
Proof.
  induction l as [|x l IH]; simpl; [constructor|now apply insert_sorted].
Qed.

(** A list sorted by [before] whose positions are pairwise distinct is
    in rank order. *)
Lemma sorted_ranked {R} (l : list (result R)) :
  StronglySorted (fun a b => before a b = true) l ->
  NoDup (map refIndex l) ->
  StronglySorted ranked l.
Proof.
  induction 1 as [|x l S IH F]; simpl; intros N; [constructor|].
  inversion N as [|? ? NI N']; subst. constructor; [now apply IH|].
  rewrite Forall_forall in *. intros y Hy.
  assert (D : refIndex x <> refIndex y).
  { intros E. apply NI. rewrite E. now apply in_map. }
  specialize (F y Hy). apply before_iff in F. unfold ranked.
  destruct F as [F|[F I]]; split; try lra; intros; try lra; lia.
Qed.

Section FuseFacts.
Variable R : Type.
Variable field : str -> R -> option str.
Variable field_score : str -> str -> Q.
Variable o : options.
Variable pattern : str.

Local Abbreviation score_of := (record_score field field_score o pattern).
Local Abbreviation cands := (candidates field field_score o pattern).

Lemma candidates_in (i : nat) (docs : list R) (x : result R) :
  In x (cands i docs) <->
  exists k, nth_error docs k = Some (item x) /\ refIndex x = i + k /\
            score_of (item x) = Some (score x) /\
            (score x <= threshold o)%Q.
Proof.
  revert i. induction docs as [|r docs IH]; intros i; simpl.
  - split; [intros []|]. intros (k & H & _). destruct k; discriminate.
  - assert (T : (exists k, nth_error docs k = Some (item x) /\
                   refIndex x = S i + k /\
                   record_score field field_score o pattern (item x)
                   = Some (score x) /\ (score x <= threshold o)%Q) ->
                exists k, nth_error (r :: docs) k = Some (item x) /\
                   refIndex x = i + k /\
                   record_score field field_score o pattern (item x)
                   = Some (score x) /\ (score x <= threshold o)%Q).
    { intros (k & H1 & H2 & H3). exists (S k). simpl. split; [exact H1|].
      split; [lia|exact H3]. }
    assert (U : forall k, nth_error (r :: docs) k = Some (item x) ->
                refIndex x = i + k -> k <> 0 ->
                record_score field field_score o pattern (item x)
                = Some (score x) -> (score x <= threshold o)%Q ->
                exists k, nth_error docs k = Some (item x) /\
                   refIndex x = S i + k /\
                   record_score field field_score o pattern (item x)
                   = Some (score x) /\ (score x <= threshold o)%Q).
    { intros [|k] H1 H2 H3 H4 H5; [congruence|]. exists k. simpl in H1.
      repeat split; try assumption. lia. }
    destruct (record_score field field_score o pattern r) as [s|] eqn:E.
    + destruct (Qle_bool s (threshold o)) eqn:L.
      * simpl. split.
        -- intros [<-|H]; simpl.
           ++ exists 0. simpl. repeat split; [lia|exact E|].
              now apply Qle_bool_iff.
           ++ apply T, IH, H.
        -- intros (k & H1 & H2 & H3 & H4). destruct k as [|k].
           ++ left. simpl in H1. injection H1 as ->. destruct x as [it ri sc].
              simpl in *. rewrite E in H3. injection H3 as ->.
              f_equal. lia.
           ++ right. apply IH. exists k. simpl in H1. repeat split; try assumption. lia.
      * split.
        -- intros H. apply T, IH, H.
        -- intros (k & H1 & H2 & H3 & H4). apply IH.
           destruct k as [|k].
           ++ simpl in H1. injection H1 as ->. rewrite E in H3. injection H3 as ->.
              apply Qle_bool_iff in H4. congruence.
           ++ eapply U; eauto.
    + split.
      * intros H. apply T, IH, H.
      * intros (k & H1 & H2 & H3 & H4). apply IH.
        destruct k as [|k].
        -- simpl in H1. injection H1 as ->. congruence.
        -- eapply U; eauto.
Qed.

Lemma candidates_positions (i : nat) (docs : list R) :
  StronglySorted lt (map refIndex (cands i docs)).
Proof.
  revert i. induction docs as [|r docs IH]; intros i; simpl; [constructor|].
  assert (B : Forall (lt i) (map refIndex (candidates field field_score o pattern (S i) docs))).
  { apply Forall_forall. intros n Hn. apply in_map_iff in Hn.
    destruct Hn as (x & <- & Hx). apply candidates_in in Hx.
    destruct Hx as (k & _ & -> & _). lia. }
  destruct (record_score field field_score o pattern r) as [s|]; [|apply IH].
  destruct (Qle_bool s (threshold o)); [|apply IH].
  simpl. constructor; [apply IH|exact B].
Qed.

Lemma sorted_lt_nodup (l : list nat) : StronglySorted lt l -> NoDup l.
Proof.
  induction 1 as [|x l S IH F]; constructor; [|exact IH].
  intros I. rewrite Forall_forall in F. specialize (F x I). lia.
Qed.

Lemma search_in (docs : list R) (x : result R) :
  In x (search field field_score o docs pattern) <->
  exists k, nth_error docs k = Some (item x) /\ refIndex x = k /\
            score_of (item x) = Some (score x) /\
            (score x <= threshold o)%Q.
Proof.
  unfold search. split.
  - intros H. apply (Permutation_in _ (sort_perm _)) in H.
    apply candidates_in in H. exact H.
  - intros H. apply (Permutation_in _ (Permutation_sym (sort_perm _))).
    apply candidates_in. exact H.
Qed.

Lemma search_ranked (docs : list R) :
  StronglySorted ranked (search field field_score o docs pattern).
Proof.
  apply sorted_ranked; [apply sort_sorted|].
  unfold search.
  apply (Permutation_NoDup (Permutation_map refIndex (Permutation_sym (sort_perm _)))).
  apply sorted_lt_nodup, candidates_positions.
Qed.

(** The records that a search keeps. *)
Lemma search_keeps (docs : list R) (r : R) :
  In r (map item (search field field_score o docs pattern)) <->
  In r docs /\ exists s, score_of r = Some s /\ (s <= threshold o)%Q.
Proof.
  rewrite in_map_iff. split.
  - intros (x & <- & Hx). apply search_in in Hx.
    destruct Hx as (k & H1 & _ & H3 & H4). split.
    + eapply nth_error_In; eauto.
    + now exists (score x).
  - intros (Hr & s & H1 & H2). apply In_nth_error in Hr. destruct Hr as [k Hk].
    exists (mk_result r k s). split; [reflexivity|].
    apply search_in. exists k. now repeat split.
Qed.

End FuseFacts.

Lemma unscored_items {R} (i : nat) (docs : list R) :
  map item (unscored i docs) = docs.
Proof.
  revert i. induction docs as [|r docs IH]; intros i; simpl; [reflexivity|].
  now rewrite IH.
Qed.

Lemma unscored_in {R} (i : nat) (docs : list R) (x : result R) :
  In x (unscored i docs) ->
  exists k, nth_error docs k = Some (item x) /\ refIndex x = i + k /\
            (score x == 0)%Q.
Proof.
  revert i. induction docs as [|r docs IH]; intros i; simpl; [intros []|].
  intros [<-|H].
  - exists 0. simpl. repeat split. lia.
  - destruct (IH _ H) as (k & H1 & H2 & H3). exists (S k). simpl.
    repeat split; [exact H1|lia|exact H3].
Qed.

Lemma unscored_ranked {R} (i : nat) (docs : list R) :
  StronglySorted ranked (unscored i docs).
Proof.
  revert i. induction docs as [|r docs IH]; intros i; simpl; constructor.
  - apply IH.
  - apply Forall_forall. intros x Hx. apply unscored_in in Hx.
    destruct Hx as (k & _ & H2 & H3). unfold ranked. simpl.
    split; [lra|intros _; lia].
Qed.

Lemma ranked_asym {R} (a b : result R) : ranked a b -> ranked b a -> False.
Proof.
  unfold ranked. intros [L1 T1] [L2 T2].
  assert (E : (score a == score b)%Q) by lra.
  specialize (T1 E). assert (E' : (score b == score a)%Q) by lra.
  specialize (T2 E'). lia.
Qed.

(** The rank order leaves no freedom: two ranked lists with the same
    results are the same list. *)
Lemma ranked_unique {R} (l1 : list (result R)) :
  forall l2, StronglySorted ranked l1 -> StronglySorted ranked l2 ->
             Permutation l1 l2 -> l1 = l2.
Proof.
  induction l1 as [|x l1 IH]; intros l2 S1 S2 P.
  - apply Permutation_nil in P. now subst.
  - destruct l2 as [|y l2].
    + apply Permutation_sym, Permutation_nil in P. discriminate.
    + inversion S1 as [|? ? S1' F1]; subst. inversion S2 as [|? ? S2' F2]; subst.
      rewrite Forall_forall in F1, F2.
      assert (Hx : In x (y :: l2))
        by (apply (Permutation_in _ P); now left).
      assert (Hy : In y (x :: l1))
        by (apply (Permutation_in _ (Permutation_sym P)); now left).
      assert (E : x = y).
      { destruct Hx as [->|Hx]; [reflexivity|].
        destruct Hy as [->|Hy]; [reflexivity|].
        exfalso. apply (@ranked_asym _ x y); [now apply F1|now apply F2]. }
      subst y. f_equal. apply IH; try assumption.
      now apply Permutation_cons_inv in P.
Qed.

Lemma filter_ranked {R} (f : result R -> bool) (l : list (result R)) :
  StronglySorted ranked l -> StronglySorted ranked (filter f l).
Proof.
  induction 1 as [|x l S IH F]; simpl; [constructor|].
  destruct (f x); [|exact IH]. constructor; [exact IH|].
  rewrite Forall_forall in *. intros y Hy. apply filter_In in Hy. now apply F.
Qed.

(** The location test, said without the code's lower-casing. *)
Lemma includes_lower_iff (l f : str) :
  includes (toLowerCase l) (toLowerCase f) = true <-> contains_ci l f.
Proof.
  rewrite includes_iff. unfold contains_ci, toLowerCase. split.
  - intros (a & b & E). apply map_eq_app in E.
    destruct E as (pre & tl & -> & <- & E). apply map_eq_app in E.
    destruct E as (mid & post & -> & E & <-). now exists pre, mid, post.
  - intros (pre & mid & post & -> & E).
    exists (map lower_char pre), (map lower_char post).
    now rewrite !map_app, E.
Qed.

Lemma location_matches_iff (locationFilter : str) (box : Box) :
  location_matches locationFilter box = true <->
  exists l, box_location box = Some l /\ contains_ci l locationFilter.
Proof.
  unfold location_matches. destruct (box_location box) as [l|].
  - rewrite includes_lower_iff. split.
    + intros H. now exists l.
    + now intros (l' & [= <-] & H).
  - split; [discriminate|]. now intros (l & [=] & _).
Qed.

(** A list in the order of the collection whose results all have the
    score 0 is sorted, and sorting leaves a sorted list as it is. *)
Lemma sort_sorted_id {R} (l : list (result R)) :
  StronglySorted (fun a b => before a b = true) l -> sort l = l.
Proof.
  induction 1 as [|x l S IH F]; [reflexivity|].
  change (sort (x :: l)) with (insert x (sort l)). rewrite IH.
  destruct l as [|y l]; [reflexivity|].
  cbn [insert]. inversion F as [|? ? Hy _]; subst. now rewrite Hy.
Qed.

Lemma neutral_sorted {R} (l : list (result R)) :
  Forall (fun x => (score x == 0)%Q) l ->
  StronglySorted lt (map refIndex l) ->
  StronglySorted (fun a b => before a b = true) l.
Proof.
  induction l as [|x l IH]; simpl; intros F S; [constructor|].
  inversion F as [|? ? Fx Fl]; subst. inversion S as [|? ? Sl Sx]; subst.
  constructor; [now apply IH|].
  rewrite Forall_forall in *. intros y Hy. apply before_iff. right.
  split; [rewrite Fx, (Fl y Hy); reflexivity|].
  assert (refIndex x < refIndex y) by (apply Sx; now apply in_map). lia.
Qed.

Lemma fold_min_neutral (l : list Q) :
  forall s, (s == 0)%Q -> Forall (fun x => (x == 0)%Q) l ->
            (fold_left Qmin l s == 0)%Q.
Proof.
  induction l as [|x l IH]; simpl; intros s Hs F; [exact Hs|].
  inversion F as [|? ? Hx Hl]; subst. apply IH; [|exact Hl].
  unfold Qmin. now destruct (Qle_bool s x).
Qed.

Section BlankQuery.
Variable R : Type.
Variable field : str -> R -> option str.
Variable field_score : str -> str -> Q.
Variable o : options.
Variable pattern : str.
Hypothesis neutral : neutral_on_blank field_score.
Hypothesis pattern_blank : blank pattern.
Hypothesis has_field :
  forall r, exists k v, In k (keys o) /\ field k r = Some v.
Hypothesis threshold_nonneg : Qle_bool 0 (threshold o) = true.

Lemma record_score_blank (r : R) :
  exists s, record_score field field_score o pattern r = Some s /\ (s == 0)%Q.
Proof.
  unfold record_score, field_scores.
  assert (F : Forall (fun x => (x == 0)%Q)
                (flat_map (fun k => match field k r with
                                    | Some v => [field_score pattern v]
                                    | None => []
                                    end) (keys o))).
  { apply Forall_forall. intros x Hx. apply in_flat_map in Hx.
    destruct Hx as (k & _ & Hx). destruct (field k r) as [v|]; [|destruct Hx].
    destruct Hx as [<-|[]]. now apply neutral. }
  destruct (has_field r) as (k & v & Hk & Hv).
  assert (I : In (field_score pattern v)
                (flat_map (fun k => match field k r with
                                    | Some v => [field_score pattern v]
                                    | None => []
                                    end) (keys o))).
  { apply in_flat_map. exists k. split; [exact Hk|]. rewrite Hv. now left. }
  destruct (flat_map _ (keys o)) as [|s l]; [destruct I|].
  inversion F as [|? ? Hs Hl]; subst. exists (fold_left Qmin l s).
  split; [reflexivity|]. now apply fold_min_neutral.
Qed.

Lemma candidates_blank (docs : list R) :
  forall i,
    map item (candidates field field_score o pattern i docs) = docs /\
    Forall (fun x => (score x == 0)%Q)
           (candidates field field_score o pattern i docs).
Proof.
  induction docs as [|r docs IH]; intros i; simpl; [split; [reflexivity|constructor]|].
  destruct (record_score_blank r) as (s & -> & Hs).
  assert (L : Qle_bool s (threshold o) = true).
  { apply Qle_bool_iff. rewrite Hs. now apply Qle_bool_iff. }
  rewrite L. simpl. destruct (IH (S i)) as [IH1 IH2].
  split; [now rewrite IH1|now constructor].
Qed.

(** The search for a blank query returns the collection as it is, every
    record with the score 0. *)
Lemma search_blank (docs : list R) :
  map item (search field field_score o docs pattern) = docs /\
  search field field_score o docs pattern
  = candidates field field_score o pattern 0 docs /\
  Forall (fun x => (score x == 0)%Q) (search field field_score o docs pattern).
Proof.
  destruct (candidates_blank docs 0) as [C1 C2].
  assert (E : search field field_score o docs pattern
              = candidates field field_score o pattern 0 docs).
  { unfold search. apply sort_sorted_id, neutral_sorted; [exact C2|].
    apply candidates_positions. }
  rewrite E. now repeat split.
Qed.

End BlankQuery.

Section Claims.
Variable field_score : str -> str -> Q.

Local Abbreviation item_score := (record_score item_field field_score item_options).
Local Abbreviation box_score := (record_score box_field field_score box_options).

(** The results behind the box list before the location filter. *)
Lemma box_results (boxes : list Box) (searchTerm : str) :
  exists results,
    filterBoxes field_score boxes searchTerm [] = map item results /\
    StronglySorted ranked results /\
    (forall x, In x results -> nth_error boxes (refIndex x) = Some (item x)) /\
    (searchTerm <> [] ->
     forall x, In x results -> box_score searchTerm (item x) = Some (score x)).
Proof.
  destruct searchTerm as [|c q].
  - exists (unscored 0 boxes). simpl. rewrite unscored_items.
    repeat split; [apply unscored_ranked| |congruence].
    intros x Hx. apply unscored_in in Hx. destruct Hx as (k & H1 & H2 & _).
    simpl in H2. now rewrite H2.
  - exists (search box_field field_score box_options boxes (c :: q)).
    repeat split; [apply search_ranked| |].
    + intros x Hx. apply search_in in Hx. destruct Hx as (k & H1 & H2 & _).
      now rewrite H2.
    + intros _ x Hx. apply search_in in Hx. now destruct Hx as (k & _ & _ & H3 & _).
Qed.

Lemma filterBoxes_location (boxes : list Box) (searchTerm locationFilter : str) :
  locationFilter <> [] ->
  filterBoxes field_score boxes searchTerm locationFilter =
  filter (location_matches locationFilter)
         (filterBoxes field_score boxes searchTerm []).
Proof.
  intros H. unfold filterBoxes.
  destruct locationFilter as [|c l]; [congruence|reflexivity].
Qed.

(** C6: the matcher's output is in rank order.  Both filters return the
    records of a list of results in which every result has a score no
    worse than the results after it, equal scores stand in the order of
    the collection, every result is a record of the collection at its
    position, and (for a query that is not empty) the score is the
    record's score.  The order is the only one that ranks these
    results, and the output is a function of the inputs. *)
Theorem matcher_output_is_ranked
  (boxes : list Box) (items : list Item) (searchTerm locationFilter : str) :
  (exists results,
     filterItems field_score items searchTerm = map item results /\
     StronglySorted ranked results /\
     (forall x, In x results -> nth_error items (refIndex x) = Some (item x)) /\
     (searchTerm <> [] ->
      forall x, In x results -> item_score searchTerm (item x) = Some (score x)) /\
     (forall l, Permutation l results -> StronglySorted ranked l -> l = results))
  /\
  (exists results,
     filterBoxes field_score boxes searchTerm locationFilter = map item results /\
     StronglySorted ranked results /\
     (forall x, In x results -> nth_error boxes (refIndex x) = Some (item x)) /\
     (searchTerm <> [] ->
      forall x, In x results -> box_score searchTerm (item x) = Some (score x)) /\
     (forall l, Permutation l results -> StronglySorted ranked l -> l = results))
  /\
  (forall boxes' items' searchTerm' locationFilter',
     boxes' = boxes -> items' = items -> searchTerm' = searchTerm ->
     locationFilter' = locationFilter ->
     filterItems field_score items' searchTerm'
     = filterItems field_score items searchTerm /\
     filterBoxes field_score boxes' searchTerm' locationFilter'
     = filterBoxes field_score boxes searchTerm locationFilter).
Proof.
  assert (U : forall (R : Type) (results : list (result R)),
            StronglySorted ranked results ->
            forall l, Permutation l results -> StronglySorted ranked l ->
                      l = results).
  { intros R results S l P Sl. now apply ranked_unique. }
  split; [|split].
  - destruct searchTerm as [|c q].
    + exists (unscored 0 items). simpl. rewrite unscored_items.
      repeat split; [apply unscored_ranked| |congruence|].
      * intros x Hx. apply unscored_in in Hx. destruct Hx as (k & H1 & H2 & _).
        simpl in H2. now rewrite H2.
      * apply U, unscored_ranked.
    + exists (search item_field field_score item_options items (c :: q)).
      repeat split; [apply search_ranked| | |].
      * intros x Hx. apply search_in in Hx. destruct Hx as (k & H1 & H2 & _).
        now rewrite H2.
      * intros _ x Hx. apply search_in in Hx.
        now destruct Hx as (k & _ & _ & H3 & _).
      * apply U, search_ranked.
  - destruct (box_results boxes searchTerm) as (results & E & S & P & Q).
    destruct locationFilter as [|c l].
    + exists results. repeat split; try assumption. now apply U.
    + exists (filter (fun x => location_matches (c :: l) (item x)) results).
      rewrite filterBoxes_location by discriminate. rewrite E.
      repeat split.
      * apply filter_map_swap.
      * now apply filter_ranked.
      * intros x Hx. apply filter_In in Hx. now apply P.
      * intros N x Hx. apply filter_In in Hx. now apply Q.
      * apply U. now apply filter_ranked.
  - intros ? ? ? ? -> -> -> ->. now split.
Qed.

(** C5, amended: for a query that is not empty the filters keep exactly
    the records whose score is at most the configured threshold of 0.4
    (two fifths); a record that scores above 0.4, or has none of the
    searched fields, is left out. *)
Theorem threshold_is_two_fifths
  (boxes : list Box) (items : list Item) (searchTerm : str) :
  searchTerm <> [] ->
  (forall r, In r (filterItems field_score items searchTerm) <->
             In r items /\
             exists s, item_score searchTerm r = Some s /\ (s <= 4 # 10)%Q)
  /\
  (forall b, In b (filterBoxes field_score boxes searchTerm []) <->
             In b boxes /\
             exists s, box_score searchTerm b = Some s /\ (s <= 4 # 10)%Q).
Proof.
  intros N. destruct searchTerm as [|c q]; [congruence|]. split; intros r.
  - apply (search_keeps item_field field_score item_options (c :: q)).
  - apply (search_keeps box_field field_score box_options (c :: q)).
Qed.



End Claims.

(** C5, as stated, fails: a record whose only match of the query lies
    50 characters into its name scores 0.5, below the 0.6 of the claim,
    and the filter leaves it out. *)
Lemma score_below_sixty_percent_excluded :
  record_score item_field located_score item_options (lit "a") far_match
  = Some (50 # 100)%Q /\
  (50 # 100 < 6 # 10)%Q /\
  In far_match [far_match] /\
  ~ In far_match (filterItems located_score [far_match] (lit "a")).
Proof.
  split; [vm_compute; reflexivity|]. split; [reflexivity|].
  split; [now left|]. vm_compute. intros [].
Qed.

Lemma threshold_witness :
  lit "a" <> [] /\
  (forall r, In r (filterItems located_score [hammer; far_match] (lit "a")) <->
             In r [hammer; far_match] /\
             exists s, record_score item_field located_score item_options
                         (lit "a") r = Some s /\ (s <= 4 # 10)%Q)
  /\
  (forall b, In b (filterBoxes located_score [garage; kitchen] (lit "a") []) <->
             In b [garage; kitchen] /\
             exists s, record_score box_field located_score box_options
                         (lit "a") b = Some s /\ (s <= 4 # 10)%Q).
Proof.
  split; [discriminate|].
  apply (threshold_is_two_fifths located_score [garage; kitchen]
           [hammer; far_match] (searchTerm := lit "a")).
  discriminate.
Defined.

Lemma located_score_neutral : neutral_on_blank located_score.
Proof.
  intros pattern text B. unfold blank in B. unfold located_score.
  rewrite B. reflexivity.
Qed.



(** The location filter on records: the box in the garage is kept for
    the filter "gar" in any case of its letters, the box without
    location is dropped; and a location with a capital beyond A-Z is
    found by its small letter. *)
Lemma location_filter_on_records :
  filterBoxes located_score [garage; kitchen] [] (lit "GAR") = [garage] /\
  filterBoxes located_score [garage; kitchen] (lit "tools") (lit "gar")
  = [garage] /\
  location_matches [ascii_of_nat 233]
    {| box_id := lit "b3"; box_name := lit "Chalk";
       box_location := Some (ascii_of_nat 201 :: lit "cole");
       box_description := None |} = true.
Proof. vm_compute. repeat split; reflexivity. Qed.

End MatcherFacts.

(* ================================================================== *)
(** ** The matcher and the split loop come to an end *)
(* ================================================================== *)

Module RegexFacts.
Import JS Regex.

Lemma forget_rest (gs : list nat) (x : mstate) : rest (forget gs x) = rest x.
Proof. induction gs as [|g gs IH]; simpl; [reflexivity|exact IH]. Qed.

Lemma forget_pos (gs : list nat) (x : mstate) : pos (forget gs x) = pos x.
Proof. induction gs as [|g gs IH]; simpl; [reflexivity|exact IH]. Qed.

Lemma continues_refl (x : mstate) : continues x x.
Proof. apply (@continues_by x x 0); [reflexivity|lia|lia]. Qed.

Lemma continues_trans (x y z : mstate) :
  continues x y -> continues y z -> continues x z.
Proof.
  intros [k1 R1 P1 L1] [k2 R2 P2 L2].
  apply (@continues_by x z (k1 + k2)).
  - rewrite R2, R1, skipn_skipn. f_equal. lia.
  - lia.
  - rewrite R1, length_skipn in L2. lia.
Qed.

Lemma continues_forget (gs : list nat) (x y : mstate) :
  continues (forget gs x) y -> continues x y.
Proof.
  intros [k R P L]. rewrite forget_rest in R, L. rewrite forget_pos in P.
  now apply (@continues_by x y k).
Qed.

Lemma continues_shorter (x y : mstate) :
  continues x y -> pos y <> pos x -> length (rest y) < length (rest x).
Proof.
  intros [k R P L] N. rewrite R, length_skipn. lia.
Qed.

Section RepeatFacts.
Variable m : mstate -> list mstate.
Variable gs : list nat.
Hypothesis m_continues : forall x y, In y (m x) -> continues x y.

Lemma star_from_continues (n : nat) :
  forall x y, In y (star_from m gs n x) -> continues x y.
Proof.
  induction n as [|n IH]; intros x y; simpl.
  - intros [<-|[]]. apply continues_refl.
  - rewrite in_app_iff, in_flat_map. intros [(z & Hz & Hy)|[<-|[]]].
    + destruct (pos z =? pos x); [destruct Hy|].
      apply continues_trans with z; [|now apply IH].
      now apply (continues_forget gs), m_continues.
    + apply continues_refl.
Qed.

(** The bound of [star_from] is never the reason an iteration stops. *)
Lemma star_from_fuel (n : nat) :
  forall n' x, length (rest x) < n -> length (rest x) < n' ->
               star_from m gs n x = star_from m gs n' x.
Proof.
  induction n as [|n IH]; intros n' x Hn Hn'; [inversion Hn|].
  destruct n' as [|n']; [inversion Hn'|]. simpl. f_equal.
  rewrite !flat_map_concat_map. f_equal. apply map_ext_in. intros z Hz.
  destruct (pos z =? pos x) eqn:E; [reflexivity|].
  apply Nat.eqb_neq in E.
  assert (C : continues x z) by now apply (continues_forget gs), m_continues.
  pose proof (continues_shorter C E). apply IH; lia.
Qed.

End RepeatFacts.

(** Every result of a matcher continues the state it started from. *)
Lemma matchR_continues (r : regex) :
  forall x y, In y (matchR r x) -> continues x y.
Proof.
  induction r as [|c| | | |r1 IH1 r2 IH2|r1 IH1 r2 IH2|n r IH|r IH|r IH|r IH];
    intros x y; cbn [matchR].
  - intros [<-|[]]. apply continues_refl.
  - destruct (rest x) as [|a t] eqn:E; [intros []|].
    destruct (canonicalize a =? canonicalize c); [|intros []]. intros [<-|[]].
    apply (@continues_by x (advance x) 1); simpl; try rewrite E; simpl; lia || reflexivity.
  - destruct (rest x) as [|a t] eqn:E; [intros []|].
    destruct (is_line_terminator a); [intros []|]. intros [<-|[]].
    apply (@continues_by x (advance x) 1); simpl; try rewrite E; simpl; lia || reflexivity.
  - destruct (pos x =? 0); [|intros []]. intros [<-|[]]. apply continues_refl.
  - destruct (rest x); [|intros []]. intros [<-|[]]. apply continues_refl.
  - rewrite in_flat_map. intros (z & Hz & Hy).
    apply continues_trans with z; [now apply IH1|now apply IH2].
  - rewrite in_app_iff. intros [H|H]; [now apply IH1|now apply IH2].
  - rewrite in_map_iff. intros (z & <- & Hz). apply IH in Hz.
    destruct Hz as [k R P L]. now apply (@continues_by x (set_cap n _ z) k).
  - apply star_from_continues. exact IH.
  - rewrite in_flat_map. intros (z & Hz & Hy).
    apply continues_trans with z.
    + now apply (continues_forget (groups r)), IH.
    + eapply star_from_continues; [exact IH|exact Hy].
  - rewrite in_app_iff, in_flat_map. intros [(z & Hz & Hy)|[<-|[]]].
    + destruct (pos z =? pos x); [destruct Hy|]. destruct Hy as [<-|[]].
      now apply (continues_forget (groups r)), IH.
    + apply continues_refl.
Qed.

(** The iteration bound chosen in [matchR] for [r*] is enough: a larger
    one gives the same results. *)
Lemma star_bound_is_enough (r : regex) (x : mstate) (n : nat) :
  length (rest x) < n ->
  star_from (matchR r) (groups r) n x = matchR (Star r) x.
Proof.
  intros H. cbn [matchR]. apply star_from_fuel; [apply matchR_continues|exact H|lia].
Qed.


Lemma exec_at_continues (r : regex) (ncaps : nat) (s : str) (q : nat) (y : mstate) :
  exec_at r ncaps s q = Some y -> q <= pos y.
Proof.
  unfold exec_at.
  destruct (matchR r _) as [|z l] eqn:E; [discriminate|]. intros [= <-].
  assert (C : continues {| rest := skipn q s; pos := q;
                           caps := repeat None ncaps |} z).
  { apply (@matchR_continues r). rewrite E. now left. }
  destruct C as [k _ P _]. simpl in P. lia.
Qed.

(** The bound of the split loop is enough for every pattern: the loop
    always comes to its end. *)
Lemma split_loop_total (r : regex) (ncaps : nat) (s : str) (fuel : nat) :
  forall p q,
    p <= q -> q <= length s ->
    2 * (length s - q) + (if p =? q then 0 else 1) < fuel ->
    exists l, split_loop fuel r ncaps s p q = Some l.
Proof.
  induction fuel as [|f IH]; intros p q Hpq Hq Hf; [inversion Hf|].
  cbn [split_loop]. destruct (q <? length s) eqn:Lt; [|eexists; reflexivity].
  apply Nat.ltb_lt in Lt.
  assert (Next : exists l, split_loop f r ncaps s p (S q) = Some l).
  { apply IH; [lia|lia|].
    destruct (p =? q) eqn:E1; destruct (p =? S q) eqn:E2;
      try apply Nat.eqb_eq in E1; try apply Nat.eqb_eq in E2; lia. }
  destruct (exec_at r ncaps s q) as [y|] eqn:X; [|exact Next].
  apply exec_at_continues in X. cbn zeta.
  destruct (Nat.min (pos y) (length s) =? p) eqn:Ep; [exact Next|].
  apply Nat.eqb_neq in Ep.
  destruct (IH (Nat.min (pos y) (length s)) (Nat.min (pos y) (length s)))
    as [l El]; [lia|lia| |rewrite El; eexists; reflexivity].
  rewrite Nat.eqb_refl.
  destruct (p =? q) eqn:E1; [apply Nat.eqb_eq in E1|]; lia.
Qed.

Lemma split_total (r : regex) (ncaps : nat) (s : str) :
  exists l, split s r ncaps = Some l.
Proof.
  unfold split. destruct s as [|a s].
  - destruct (exec_at r ncaps [] 0); eexists; reflexivity.
  - apply split_loop_total; [lia|lia|]. rewrite Nat.eqb_refl. lia.
Qed.

End RegexFacts.

(* ================================================================== *)
(** ** The highlight formatter *)
(* ================================================================== *)

Module HighlightFacts.
Import JS JSFacts Regex Highlight.

(** The canonical form of a character and its lower case determine
    each other. *)
Lemma canon_lower (c : ascii) : canonicalize (lower_char c) = canonicalize c.
Proof. destruct c as [[] [] [] [] [] [] [] []]; reflexivity. Qed.

Lemma lower_canon (c : ascii) :
  lower_char (ascii_of_nat (if canonicalize c =? 924 then 181
                            else if canonicalize c =? 376 then 255
                            else canonicalize c)) = lower_char c.
Proof. destruct c as [[] [] [] [] [] [] [] []]; vm_compute; reflexivity. Qed.

Lemma canon_eq_iff (a b : ascii) :
  canonicalize a = canonicalize b <-> lower_char a = lower_char b.
Proof.
  split; intros H.
  - rewrite <- (lower_canon a), <- (lower_canon b). now rewrite H.
  - rewrite <- (canon_lower a), <- (canon_lower b). now rewrite H.
Qed.

Lemma prefix_ci_iff (q s : str) :
  prefix_ci q s = true <-> occurs_ci q s.
Proof.
  unfold occurs_ci, toLowerCase. revert s. induction q as [|c q IH]; intros s; simpl.
  - split; [|reflexivity]. intros _. now exists [], s.
  - destruct s as [|a s].
    + split; [discriminate|]. intros (m & t & E & L).
      destruct m; [discriminate|discriminate].
    + rewrite andb_true_iff, IH. split.
      * intros [E (m & t & -> & L)]. apply Nat.eqb_eq, canon_eq_iff in E.
        exists (a :: m), t. simpl. now rewrite E, L.
      * intros (m & t & E & L). destruct m as [|a' m]; [discriminate|].
        simpl in *. injection E as <- ->. injection L as L1 L2.
        split; [now apply Nat.eqb_eq, canon_eq_iff|]. now exists m, t.
Qed.

Lemma prefix_ci_length (q s : str) :
  prefix_ci q s = true -> length q <= length s.
Proof.
  revert s. induction q as [|c q IH]; intros s; simpl; [lia|].
  destruct s as [|a s]; [discriminate|]. rewrite andb_true_iff.
  intros [_ H]. apply IH in H. simpl. lia.
Qed.

Lemma prefix_ci_firstn (q s : str) :
  prefix_ci q s = true ->
  toLowerCase (firstn (length q) s) = toLowerCase q.
Proof.
  revert s. induction q as [|c q IH]; intros s; simpl; [reflexivity|].
  destruct s as [|a s]; [discriminate|]. rewrite andb_true_iff.
  intros [E H]. apply Nat.eqb_eq, canon_eq_iff in E. simpl.
  now rewrite E, (IH _ H).
Qed.

(** The matcher of a sequence of characters. *)
Lemma matchR_chars (q : str) (x : mstate) :
  matchR (chars q) x =
  if prefix_ci q (rest x)
  then [{| rest := skipn (length q) (rest x); pos := pos x + length q;
           caps := caps x |}]
  else [].
Proof.
  revert x. induction q as [|c q IH]; intros x.
  - simpl. destruct x as [r p cs]. simpl. now rewrite Nat.add_0_r.
  - cbn [chars matchR prefix_ci]. destruct (rest x) as [|a s] eqn:E; [reflexivity|].
    destruct (canonicalize a =? canonicalize c); [|reflexivity].
    cbn [flat_map andb]. rewrite app_nil_r, IH. unfold advance. rewrite E. cbn [rest pos caps tl length skipn].
    destruct (prefix_ci q s); [|reflexivity].
    do 2 f_equal. lia.
Qed.


Lemma literal_char (c : ascii) :
  is_syntax_char c = false ->
  Ascii.eqb c "|" = false /\ Ascii.eqb c ")" = false /\
  is_unmodelled_char c = false /\ is_quantifier_char c = false /\
  Ascii.eqb c "^" = false /\ Ascii.eqb c "$" = false /\
  Ascii.eqb c "(" = false /\ Ascii.eqb c "." = false /\
  Ascii.eqb c "?" = false.
Proof.
  unfold is_syntax_char, is_unmodelled_char, is_quantifier_char, mem_char.
  cbn [list_ascii_of_string existsb]. intros H.
  repeat (apply orb_false_iff in H; destruct H as [? H]).
  repeat match goal with E : Ascii.eqb c _ = false |- _ => rewrite E; clear E end.
  repeat split; reflexivity.
Qed.

Lemma parse_quantifier_none (r : regex) (s : str) :
  match s with c :: _ => is_quantifier_char c = false | [] => True end ->
  parse_quantifier r s = Parsed (r, s).
Proof.
  destruct s as [|c s]; [reflexivity|]. intros H. unfold parse_quantifier.
  now rewrite H.
Qed.

Lemma parse_alternative_literal (q : str) :
  literal_query q ->
  forall fuel n tail, length q < fuel ->
  parse_alternative fuel (q ++ ")"%char :: tail) n
  = Parsed (chars q, ")"%char :: tail, n).
Proof.
  induction 1 as [|c q Hc Hq IH]; intros fuel n tail Hf.
  - destruct fuel as [|f]; [inversion Hf|]. reflexivity.
  - destruct fuel as [|f]; [inversion Hf|]. simpl in Hf.
    destruct (literal_char _ Hc) as (E1 & E2 & E3 & E4 & E5 & E6 & E7 & E8 & E9).
    cbn [app parse_alternative]. rewrite E1, E2, E3, E4, E5, E6, E7, E8.
    cbn [orb]. rewrite parse_quantifier_none.
    + rewrite IH by lia. reflexivity.
    + destruct Hq as [|c' q' Hc' _]; [reflexivity|].
      now destruct (literal_char _ Hc') as (_ & _ & _ & ? & _).
Qed.

Lemma parse_disjunction_literal (q : str) :
  literal_query q ->
  forall fuel n tail, S (length q) < fuel ->
  parse_disjunction fuel (q ++ ")"%char :: tail) n
  = Parsed (chars q, ")"%char :: tail, n).
Proof.
  intros L fuel n tail Hf. destruct fuel as [|f]; [inversion Hf|].
  cbn [parse_disjunction]. rewrite (parse_alternative_literal L) by lia.
  reflexivity.
Qed.

Lemma parse_alternative_nil (f n : nat) :
  parse_alternative (S f) [] n = Parsed (Empty, [], n).
Proof. reflexivity. Qed.

Lemma compile_literal (q : str) :
  q <> [] -> literal_query q ->
  compile (lit "(" ++ q ++ lit ")") = Parsed (Seq (Group 0 (chars q)) Empty, 1).
Proof.
  intros N L. unfold compile.
  assert (F : exists f, 2 * length (lit "(" ++ q ++ lit ")") + 2
                        = S (S (S f)) /\ S (length q) < S f).
  { exists (2 * length q + 3). rewrite !length_app. simpl. lia. }
  destruct F as (f & -> & Hf).
  change (lit "(" ++ q ++ lit ")") with ("("%char :: q ++ ")"%char :: []).
  cbn [parse_disjunction].
  assert (A : parse_alternative (S (S f)) ("("%char :: q ++ [")"%char]) 0
              = Parsed (Seq (Group 0 (chars q)) Empty, [], 1)).
  { destruct q as [|c q]; [congruence|]. inversion L as [|? ? Hc Hq]; subst.
    destruct (literal_char _ Hc) as (E1 & E2 & E3 & E4 & E5 & E6 & E7 & E8 & E9).
    remember (S f) as g eqn:Eg.
    cbn [parse_alternative app]. rewrite E9.
    change (c :: q ++ [")"%char]) with ((c :: q) ++ ")"%char :: []).
    rewrite (parse_disjunction_literal L) by (subst g; exact Hf).
    cbn [parse_quantifier]. subst g. rewrite parse_alternative_nil.
    reflexivity. }
  rewrite A. reflexivity.
Qed.


Lemma exec_at_literal (q text : str) (k : nat) :
  exec_at (literal_pattern q) 1 text k =
  if prefix_ci q (skipn k text)
  then Some {| rest := skipn (length q) (skipn k text);
               pos := k + length q;
               caps := [Some (firstn (length q) (skipn k text))] |}
  else None.
Proof.
  unfold exec_at, literal_pattern. cbn [matchR]. rewrite matchR_chars.
  cbn [rest pos caps repeat].
  destruct (prefix_ci q (skipn k text)); [|reflexivity].
  cbn [map flat_map matchR app]. unfold set_cap. cbn [rest pos caps set_nth].
  now replace (k + length q - k) with (length q) by lia.
Qed.

Lemma skipn_substring (text : str) (p k : nat) :
  p <= k -> skipn p text = substring text p k ++ skipn k text.
Proof.
  intros H. unfold substring.
  rewrite <- (firstn_skipn (k - p) (skipn p text)) at 1.
  rewrite skipn_skipn. now replace (k - p + p) with k by lia.
Qed.

Lemma substring_length (text : str) (p k : nat) :
  k <= length text -> length (substring text p k) = k - p.
Proof.
  intros H. unfold substring. rewrite length_firstn, length_skipn. lia.
Qed.

Lemma substring_to_end (text : str) (p : nat) :
  substring text p (length text) = skipn p text.
Proof.
  unfold substring. apply firstn_all2. rewrite length_skipn. lia.
Qed.

Section Scan.
Variable text query : str.
Hypothesis query_nonempty : query <> [].

(** No occurrence of the query starts at an index from [p] up to [k]. *)
Local Abbreviation clear_between p k :=
  (forall j, p <= j -> j < k -> prefix_ci query (skipn j text) = false).

Lemma gap_is_unmarked (p k : nat) :
  p <= k -> k <= length text -> clear_between p k ->
  str_eqb (toLowerCase (substring text p k)) (toLowerCase query) = false.
Proof.
  intros Hpk Hk C. destruct (str_eqb _ _) eqn:E; [|reflexivity].
  apply str_eqb_eq in E. exfalso.
  assert (M : prefix_ci query (skipn p text) = true).
  { apply prefix_ci_iff. exists (substring text p k), (skipn k text).
    split; [now apply skipn_substring|exact E]. }
  destruct (Nat.eq_dec p k) as [->|D].
  - unfold substring in E. rewrite Nat.sub_diag in E. simpl in E.
    destruct query; [congruence|discriminate].
  - rewrite C in M by lia. discriminate.
Qed.

Lemma clear_gap (p k : nat) (tail : str) :
  p <= k -> k <= length text -> clear_between p k ->
  skipn p text = substring text p k ++ tail ->
  forall j, j < length (substring text p k) ->
            ~ occurs_ci query (skipn j (substring text p k ++ tail)).
Proof.
  intros Hpk Hk C E j Hj O. rewrite <- E, skipn_skipn in O.
  apply prefix_ci_iff in O. rewrite substring_length in Hj by exact Hk.
  rewrite C in O by lia. discriminate.
Qed.

Lemma split_loop_literal (fuel : nat) :
  forall p k,
    p <= k -> k <= length text -> length text - k < fuel ->
    clear_between p k ->
    exists parts l,
      split_loop fuel (literal_pattern query) 1 text p k = Some parts /\
      mark_parts query parts = Returns l /\
      literal_segments query (skipn p text) l.
Proof.
  induction fuel as [|f IH]; intros p k Hpk Hk Hf C; [inversion Hf|].
  cbn [split_loop]. destruct (k <? length text) eqn:Lt.
  - apply Nat.ltb_lt in Lt. rewrite exec_at_literal.
    destruct (prefix_ci query (skipn k text)) eqn:M.
    + cbn [pos caps].
      assert (Lq : length query <= length text - k).
      { apply prefix_ci_length in M. now rewrite length_skipn in M. }
      assert (Pq : 0 < length query) by (destruct query; [congruence|simpl; lia]).
      rewrite Nat.min_l by lia.
      destruct (k + length query =? p) eqn:Ep; [apply Nat.eqb_eq in Ep; lia|].
      destruct (IH (k + length query) (k + length query))
        as (parts & l & Ep' & El & Sl); [lia|lia|lia|intros j ? ?; lia|].
      rewrite Ep'. eexists. eexists. split; [reflexivity|].
      cbn [app mark_parts]. rewrite El.
      rewrite (gap_is_unmarked Hpk Hk C).
      assert (Em : toLowerCase (firstn (length query) (skipn k text))
                   = toLowerCase query) by now apply prefix_ci_firstn.
      rewrite Em, str_eqb_refl.
      split; [reflexivity|].
      assert (E : skipn p text
                  = substring text p k
                    ++ firstn (length query) (skipn k text)
                    ++ skipn (k + length query) text).
      { rewrite (skipn_substring text Hpk). f_equal.
        rewrite <- (firstn_skipn (length query) (skipn k text)) at 1.
        rewrite skipn_skipn. now rewrite (Nat.add_comm (length query)). }
      rewrite E. apply segments_match; [exact Em| |exact Sl].
      apply (clear_gap _ Hpk Hk C E).
    + apply IH; [lia|lia|lia|].
      intros j H1 H2. destruct (Nat.eq_dec j k) as [->|D]; [exact M|].
      apply C; lia.
  - apply Nat.ltb_ge in Lt. assert (k = length text) by lia. subst k.
    eexists. eexists. split; [reflexivity|].
    cbn [mark_parts]. rewrite (gap_is_unmarked Hpk Hk C).
    split; [reflexivity|].
    rewrite substring_to_end. apply segments_end.
    intros j Hj O. rewrite skipn_skipn in O. apply prefix_ci_iff in O.
    rewrite length_skipn in Hj. rewrite C in O by lia. discriminate.
Qed.

End Scan.

Lemma literal_segments_shown (query text : str) (l : list segment) :
  literal_segments query text l -> shown l = text.
Proof.
  unfold shown. induction 1 as [gap F|gap m rest l E F S IH]; simpl.
  - apply app_nil_r.
  - now rewrite IH.
Qed.

(** On a query without pattern syntax the formatter does what section
    4.4 asks: it returns the segments of the literal scan (matched
    segments marked, the text's own casing kept), and their texts
    concatenate to the text. *)
Theorem highlight_literal_query (text query : str) :
  query <> [] -> literal_query query ->
  exists l,
    highlightMatch text query = Returns l /\
    literal_segments query text l /\
    shown l = text.
Proof.
  intros N L.
  assert (G : exists l, highlightMatch text query = Returns l /\
                        literal_segments query text l).
  { unfold highlightMatch. destruct query as [|c q] eqn:Eq; [congruence|].
    rewrite <- Eq in *. rewrite (compile_literal N L).
    fold (literal_pattern query). unfold split.
    destruct text as [|a t] eqn:Et.
    - rewrite exec_at_literal. cbn [skipn].
      replace (prefix_ci query []) with false by (rewrite Eq; reflexivity).
      cbn [mark_parts]. rewrite Eq. cbn [toLowerCase map].
      eexists. split; [reflexivity|].
      apply segments_end. intros j Hj. inversion Hj.
    - rewrite <- Et.
      destruct (@split_loop_literal text query N (2 * length text + 2) 0 0)
        as (parts & l & Ep & El & Sl); [lia|lia|lia|intros j ? ?; lia|].
      rewrite Ep. exists l. split; [exact El|exact Sl]. }
  destruct G as (l & El & Sl). exists l. repeat split; try assumption.
  eapply literal_segments_shown; eauto.
Qed.


Lemma mark_parts_modelled (search : str) (parts : list (option str)) :
  mark_parts search parts <> NotModelled.
Proof.
  induction parts as [|[part|] parts IH]; simpl; try discriminate.
  destruct (mark_parts search parts); [discriminate|discriminate|congruence].
Qed.

(** The formatter's outcome is left open only for a pattern outside the
    modelled fragment, never by a bound of the model. *)
Lemma highlight_not_modelled (text search : str) :
  highlightMatch text search = NotModelled ->
  compile (lit "(" ++ search ++ lit ")") = Unmodelled.
Proof.
  unfold highlightMatch. destruct search as [|c q]; [discriminate|].
  destruct (compile _) as [[r n]| |]; [|discriminate|reflexivity].
  destruct (RegexFacts.split_total r n text) as [l ->]. intros H.
  now apply mark_parts_modelled in H.
Qed.

(** The scenario of the specification, on a query without pattern
    syntax: the match keeps the casing of the text. *)
Lemma highlight_garage_tools :
  highlightMatch (lit "Garage Tools") (lit "tool")
  = Returns [(lit "Garage ", false); (lit "Tool", true); (lit "s", false)].
Proof. reflexivity. Qed.

(** The case of letters beyond A-Z: the small letter U+00E9 finds the
    capital U+00C9, which is marked as it stands in the text. *)
Lemma highlight_latin1_capital :
  highlightMatch (ascii_of_nat 201 :: lit "cole") [ascii_of_nat 233]
  = Returns [([], false); ([ascii_of_nat 201], true); (lit "cole", false)].
Proof. vm_compute. reflexivity. Qed.

(** C2 fails on the code: the query is put into the pattern as it is,
    so a query with pattern syntax is not read literally.  The query
    [(] makes the constructor throw a [SyntaxError]; the query [(a)]
    adds a second group, whose capture is listed too, and the pieces of
    "xay" spell "xaay"; the query [(a)|b] leaves a group undefined on
    "b", and lower-casing it throws a [TypeError]. *)
Theorem highlight_round_trip_breaks_on_pattern_syntax :
  highlightMatch (lit "a") (lit "(") = Throws SyntaxErr /\
  highlightMatch (lit "xay") (lit "(a)")
  = Returns [(lit "x", false); (lit "a", false); (lit "a", false);
             (lit "y", false)] /\
  shown [(lit "x", false); (lit "a", false); (lit "a", false);
         (lit "y", false)] = lit "xaay" /\
  lit "xaay" <> lit "xay" /\
  highlightMatch (lit "b") (lit "(a)|b") = Throws TypeErr.
Proof. repeat split; try reflexivity. discriminate. Qed.

(** C7 fails on the code: with the query [a|b] the text "a|b" holds the
    query literally, yet no piece is marked, because the pattern
    matches "a" and "b" on their own; and the query [c++], which occurs
    literally in "C++ book", makes the constructor throw. *)
Theorem highlight_misses_literal_occurrence :
  highlightMatch (lit "a|b") (lit "a|b")
  = Returns [([], false); (lit "a", false); (lit "|", false);
             (lit "b", false); ([], false)] /\
  highlightMatch (lit "C++ book") (lit "c++") = Throws SyntaxErr /\
  highlightMatch (lit "Garage Tools") []
  = Returns [(lit "Garage Tools", false)].
Proof. repeat split; reflexivity. Qed.

End HighlightFacts.

(* ================================================================== *)
(** ** The forms: names, quantities and their text *)
(* ================================================================== *)

Module FormFacts.
Import JS JSFacts Quantity JSNumber Forms.

Lemma trim_start_white (ws s : str) :
  all_white ws -> trim_start (ws ++ s) = trim_start s.
Proof.
  induction 1 as [|c ws Hc _ IH]; simpl; [reflexivity|]. now rewrite Hc.
Qed.

Lemma trim_start_split (s : str) :
  exists ws, all_white ws /\ s = ws ++ trim_start s /\
             match trim_start s with
             | [] => True
             | c :: _ => is_white c = false
             end.
Proof.
  induction s as [|c s IH]; simpl.
  - exists []. repeat split. constructor.
  - destruct (is_white c) eqn:E.
    + destruct IH as (ws & W & Es & H). exists (c :: ws).
      repeat split; [now constructor|simpl; now f_equal|exact H].
    + exists []. repeat split; [constructor|exact E].
Qed.

Lemma trim_start_nil (s : str) : trim_start s = [] <-> all_white s.
Proof.
  split.
  - intros E. destruct (trim_start_split s) as (ws & W & Es & _).
    rewrite E, app_nil_r in Es. now subst.
  - intros W. rewrite <- (app_nil_r s). now rewrite trim_start_white.
Qed.

Lemma trim_start_tight (s : str) :
  match s with [] => True | c :: _ => is_white c = false end ->
  trim_start s = s.
Proof. destruct s as [|c s]; simpl; [reflexivity|]. now intros ->. Qed.

(** A text is blank for [trim] exactly when it is whitespace only. *)
Lemma trim_nil (s : str) : trim s = [] <-> all_white s.
Proof.
  unfold trim. split.
  - intros E. apply (f_equal (@rev ascii)) in E. rewrite rev_involutive in E.
    simpl in E. apply trim_start_nil in E.
    apply trim_start_nil.
    destruct (trim_start_split s) as (_ & _ & _ & H).
    destruct (trim_start s) as [|c t]; [reflexivity|].
    unfold all_white in E. rewrite Forall_forall in E.
    assert (is_white c = true) by (apply E, in_rev; rewrite rev_involutive; now left).
    congruence.
  - intros W. apply trim_start_nil in W. now rewrite W.
Qed.

(** Whitespace around a text without whitespace is what [trim] removes. *)
Lemma trim_padded (ws1 core ws2 : str) :
  all_white ws1 -> all_white ws2 ->
  Forall (fun c => is_white c = false) core ->
  trim (ws1 ++ core ++ ws2) = core.
Proof.
  intros W1 W2 C. unfold trim. rewrite (trim_start_white _ W1).
  assert (T : forall t, Forall (fun c => is_white c = false) t ->
                        forall u, trim_start (t ++ u)
                                  = match t with [] => trim_start u | _ => t ++ u end).
  { intros t Ht u. destruct Ht as [|c t Hc _]; [reflexivity|]. simpl. now rewrite Hc. }
  rewrite (T _ C). destruct core as [|c core].
  - simpl. apply trim_start_nil in W2. now rewrite W2.
  - rewrite rev_app_distr.
    assert (W2' : all_white (rev ws2)) by now apply Forall_rev.
    rewrite (trim_start_white _ W2').
    assert (C' : Forall (fun c => is_white c = false) (rev (c :: core)))
      by now apply Forall_rev.
    rewrite <- (app_nil_r (rev (c :: core))), (T _ C').
    destruct (rev (c :: core)) eqn:E.
    + apply (f_equal (@length ascii)) in E. rewrite length_rev in E. discriminate.
    + rewrite <- E, app_nil_r. apply rev_involutive.
Qed.

(** The two creation forms send a request exactly when the name holds a
    character that is not whitespace, and then send the form data as
    typed: the name is not trimmed. *)
Theorem forms_require_a_name (boxId : str) (fd : formData) (bf : boxForm) :
  (submit_add boxId fd = None <-> all_white (name fd)) /\
  (forall p, submit_add boxId fd = Some p ->
             p_name p = name fd /\ p_quantity p = quantity fd /\
             p_details p = details fd /\ p_box_id p = Some boxId) /\
  (submit_create bf = None <-> all_white (b_name bf)) /\
  (forall p, submit_create bf = Some p -> p = bf).
Proof.
  unfold submit_add, submit_create. split; [|split; [|split]].
  - split.
    + destruct (trim (name fd)) eqn:E; [intros _; now apply trim_nil|discriminate].
    + intros W. apply trim_nil in W. now rewrite W.
  - intros p. destruct (trim (name fd)); [discriminate|]. now intros [= <-].
  - split.
    + destruct (trim (b_name bf)) eqn:E; [intros _; now apply trim_nil|discriminate].
    + intros W. apply trim_nil in W. now rewrite W.
  - intros p. destruct (trim (b_name bf)); [discriminate|]. now intros [= <-].
Qed.


(** *** Doubles *)

(** Every integer below 2^53 in magnitude is a double. *)
Lemma to_number_small (m : Z) : (Z.abs m < 2 ^ 53)%Z -> to_number m = Num m.
Proof.
  intros H. unfold to_number.
  destruct (Z.ltb_spec (Z.abs m) (2 ^ 53)) as [_|L]; [reflexivity|lia].
Qed.

Lemma to_number_nonneg (m y : Z) :
  (0 <= m)%Z -> to_number m = Num y -> (0 <= y)%Z.
Proof.
  intros Hm. unfold to_number.
  destruct (Z.abs m <? 2 ^ 53)%Z; [now intros [= <-]|]. cbv zeta.
  match goal with
  | |- context [Z.shiftl ?q ?e] =>
      match q with
      | (if _ then _ else _) =>
          set (v := Z.shiftl q e); assert (V : (0 <= v)%Z)
      end
  end.
  { subst v. apply Z.shiftl_nonneg.
    assert (Q : (0 <= Z.shiftr (Z.abs m) (Z.log2 (Z.abs m) - 52))%Z)
      by (apply Z.shiftr_nonneg; lia).
    destruct (_ || _); lia. }
  destruct (2 ^ 1024 <=? v)%Z; [discriminate|]. intros [= <-].
  apply Z.mul_nonneg_nonneg; [|exact V]. apply Z.sgn_nonneg. exact Hm.
Qed.

Lemma to_number_opp (m : Z) :
  m <> 0%Z -> to_number (- m) = negate (to_number m).
Proof.
  intros N. unfold to_number. rewrite Z.abs_opp.
  destruct (Z.abs m <? 2 ^ 53)%Z; [reflexivity|]. cbv zeta.
  destruct (2 ^ 1024 <=? _)%Z; simpl.
  - f_equal. destruct (Z.ltb_spec (- m) 0), (Z.ltb_spec m 0); simpl; lia || reflexivity.
  - f_equal. rewrite Z.sgn_opp. now rewrite Z.mul_opp_l.
Qed.

(** *** Decimal digits *)

Lemma digit_char_value (d : Z) :
  (0 <= d < 10)%Z ->
  is_dec (digit_char d) = true /\ digit_value 10 (digit_char d) = Some d.
Proof.
  intros H.
  assert (C : (d = 0 \/ d = 1 \/ d = 2 \/ d = 3 \/ d = 4 \/ d = 5 \/ d = 6
               \/ d = 7 \/ d = 8 \/ d = 9)%Z) by lia.
  repeat (destruct C as [->|C]; [split; reflexivity|]). subst. split; reflexivity.
Qed.

Lemma digit_char_dec (d : Z) : (d < 10)%Z -> is_dec (digit_char d) = true.
Proof.
  intros H. destruct d as [|p|p]; [reflexivity| |reflexivity].
  apply digit_char_value. lia.
Qed.

Lemma dec_facts (c : ascii) :
  is_dec c = true ->
  is_white c = false /\ Ascii.eqb c "-" = false /\ Ascii.eqb c "+" = false /\
  Ascii.eqb c "x" = false /\ Ascii.eqb c "X" = false.
Proof.
  destruct c as [[] [] [] [] [] [] [] []]; intros H;
    try discriminate H; repeat split; reflexivity.
Qed.

Lemma not_dec_no_digit (c : ascii) :
  is_dec c = false -> digit_value 10 c = None.
Proof.
  destruct c as [[] [] [] [] [] [] [] []]; intros H;
    try discriminate H; reflexivity.
Qed.

Lemma digits_app (fuel : nat) :
  forall n a b, digits fuel n (a ++ b) = digits fuel n a ++ b.
Proof.
  induction fuel as [|f IH]; intros n a b; simpl; [reflexivity|].
  destruct (n <? 10)%Z; [reflexivity|].
  now rewrite <- IH.
Qed.

Lemma tenth (n : Z) (f : nat) :
  (10 <= n < 10 ^ Z.of_nat (S f))%Z ->
  (0 <= n mod 10 < 10)%Z /\ (0 <= n / 10 < 10 ^ Z.of_nat f)%Z /\ 0 < f.
Proof.
  intros [L U].
  assert (M : (0 <= n mod 10 < 10)%Z) by (apply Z.mod_pos_bound; lia).
  assert (P : (10 ^ Z.of_nat (S f) = 10 * 10 ^ Z.of_nat f)%Z)
    by (rewrite Nat2Z.inj_succ, Z.pow_succ_r; lia).
  assert (Q : (1 <= n / 10 < 10 ^ Z.of_nat f)%Z).
  { split; [apply Z.div_le_lower_bound; lia|].
    apply Z.div_lt_upper_bound; lia. }
  repeat split; try lia.
  destruct f; [simpl in Q; lia|lia].
Qed.

Lemma digits_dec (fuel : nat) :
  forall n acc, (0 <= n < 10 ^ Z.of_nat fuel)%Z -> 0 < fuel ->
    exists c D, digits fuel n acc = c :: D ++ acc /\
                is_dec c = true /\ Forall (fun c => is_dec c = true) D.
Proof.
  induction fuel as [|f IH]; intros n acc Hn Hf; [inversion Hf|]. simpl.
  destruct (Z.ltb_spec n 10) as [L|L].
  - exists (digit_char n), []. repeat split; [|constructor].
    apply digit_char_value; lia.
  - destruct (@tenth n f) as (M & Q & F); [lia|].
    destruct (IH (n / 10)%Z (digit_char (n mod 10) :: acc)) as (c & D & E & Hc & HD);
      [exact Q|exact F|].
    exists c, (D ++ [digit_char (n mod 10)]). rewrite E. repeat split.
    + now rewrite <- app_assoc.
    + exact Hc.
    + apply Forall_app. split; [exact HD|]. constructor; [|constructor].
      now apply digit_char_value.
Qed.

(** Reading the digits of [n] gives [n]. *)
Lemma read_digits_of (fuel : nat) :
  forall n acc, (0 <= n < 10 ^ Z.of_nat fuel)%Z -> 0 < fuel ->
    read_digits 10 None (digits fuel n acc) = read_digits 10 (Some n) acc.
Proof.
  induction fuel as [|f IH]; intros n acc Hn Hf; [inversion Hf|]. simpl.
  destruct (Z.ltb_spec n 10) as [L|L].
  - cbn [read_digits]. destruct (@digit_char_value n) as [_ ->]; [lia|]. reflexivity.
  - destruct (@tenth n f) as (M & Q & F); [lia|].
    rewrite IH by assumption. cbn [read_digits].
    destruct (@digit_char_value (n mod 10)%Z) as [_ ->]; [lia|].
    do 2 f_equal. rewrite (Z.div_mod n 10) at 3 by lia. lia.
Qed.

Lemma digits_chars (fuel : nat) :
  forall n acc, Forall (fun c => is_dec c = true) acc ->
                Forall (fun c => is_dec c = true) (digits fuel n acc).
Proof.
  induction fuel as [|f IH]; intros n acc H; simpl; [exact H|].
  destruct (Z.ltb_spec n 10) as [L|L].
  - constructor; [now apply digit_char_dec|exact H].
  - apply IH. constructor; [|exact H].
    apply digit_char_dec. apply Z.mod_pos_bound. lia.
Qed.

Lemma digits_length (fuel : nat) :
  forall n acc k, (0 <= n < 10 ^ Z.of_nat k)%Z -> 0 < k ->
    length (digits fuel n acc) <= k + length acc.
Proof.
  induction fuel as [|f IH]; intros n acc k Hn Hk; simpl; [lia|].
  destruct (Z.ltb_spec n 10) as [L|L]; [simpl; lia|].
  destruct k as [|k]; [inversion Hk|].
  destruct (@tenth n k) as (M & Q & F); [lia|].
  specialize (IH (n / 10)%Z (digit_char (n mod 10) :: acc) k Q F).
  simpl in IH. lia.
Qed.

(** A natural number has no more decimal digits than bits. *)
Lemma decimal_fuel (n : Z) :
  (0 <= n)%Z -> (0 <= n < 10 ^ Z.of_nat (S (Z.to_nat (Z.log2 n))))%Z.
Proof.
  intros H. split; [exact H|].
  rewrite Nat2Z.inj_succ, Z2Nat.id by apply Z.log2_nonneg.
  destruct (Z.eq_dec n 0) as [->|N]; [reflexivity|].
  assert (B : (n < 2 ^ Z.succ (Z.log2 n))%Z) by (apply Z.log2_spec; lia).
  assert (P : (2 ^ Z.succ (Z.log2 n) <= 10 ^ Z.succ (Z.log2 n))%Z).
  { apply Z.pow_le_mono_l. lia. }
  lia.
Qed.

Lemma decimal_dec (n : Z) :
  (0 <= n)%Z ->
  exists c D, decimal n = c :: D /\
              is_dec c = true /\ Forall (fun c => is_dec c = true) D.
Proof.
  intros H. unfold decimal.
  destruct (@digits_dec (S (Z.to_nat (Z.log2 n))) n [] (decimal_fuel H))
    as (c & D & E & Hc & HD); [lia|].
  rewrite app_nil_r in E. now exists c, D.
Qed.

Lemma decimal_chars (n : Z) : Forall (fun c => is_dec c = true) (decimal n).
Proof. apply digits_chars. constructor. Qed.

Lemma decimal_length (n : Z) (k : nat) :
  (0 <= n < 10 ^ Z.of_nat k)%Z -> 0 < k -> length (decimal n) <= k.
Proof.
  intros H K. unfold decimal.
  pose proof (@digits_length (S (Z.to_nat (Z.log2 n))) n [] k H K) as L.
  cbn [length] in L. now rewrite Nat.add_0_r in L.
Qed.

Lemma read_stops (v : Z) (tail : str) :
  stops_number tail -> read_digits 10 (Some v) tail = Some v.
Proof.
  destruct tail as [|c t]; simpl; [reflexivity|]. intros (H & _).
  now rewrite (not_dec_no_digit _ H).
Qed.

(** [parseInt] of the digits of a natural number, whatever follows
    them: no hexadecimal prefix is seen, and the digits read as [n]. *)
Lemma parseInt_digits (n : Z) (tail : str) :
  (0 <= n)%Z -> stops_number tail ->
  exists c r,
    decimal n ++ tail = c :: r /\ is_dec c = true /\
    match c :: r with
    | c0 :: cx :: t =>
        if Ascii.eqb c0 "0"%char
           && (Ascii.eqb cx "x"%char || Ascii.eqb cx "X"%char)
        then (16%Z, t) else (10%Z, c :: r)
    | _ => (10%Z, c :: r)
    end = (10%Z, c :: r) /\
    read_digits 10 None (c :: r) = Some n.
Proof.
  intros Hn St.
  destruct (decimal_dec Hn) as (c & D & E & Hc & HD).
  exists c, (D ++ tail). rewrite E.
  split; [reflexivity|]. split; [exact Hc|].
  assert (R : read_digits 10 None (c :: D ++ tail) = Some n).
  { change (c :: D ++ tail) with ((c :: D) ++ tail). rewrite <- E.
    unfold decimal.
    rewrite <- (app_nil_l tail) at 1. rewrite <- digits_app, app_nil_l.
    rewrite read_digits_of by (try apply decimal_fuel; lia).
    now apply read_stops. }
  split; [|exact R].
  destruct (D ++ tail) as [|cx t] eqn:Ed; [reflexivity|].
  assert (X : Ascii.eqb cx "x" || Ascii.eqb cx "X" = false).
  { destruct D as [|d D]; simpl in Ed.
    - subst tail. destruct St as (_ & N1 & N2).
      apply orb_false_iff. split; now apply Ascii.eqb_neq.
    - injection Ed as <- _. inversion HD as [|? ? Hd _]; subst.
      destruct (dec_facts _ Hd) as (_ & _ & _ & -> & ->). reflexivity. }
  now rewrite X, andb_false_r.
Qed.

(** [parseInt] reads a decimal, whatever follows its digits, as the
    Number value of the decimal. *)
Lemma parseInt_decimal (v : Z) (tail : str) :
  (0 <= v)%Z -> stops_number tail ->
  parseInt (decimal v ++ tail) = to_number v /\
  (v <> 0%Z -> parseInt ("-"%char :: decimal v ++ tail) = to_number (- v)).
Proof.
  intros Hv St.
  destruct (@parseInt_digits v tail) as (c & r & E & Hc & X & R);
    [exact Hv|exact St|].
  split.
  - unfold parseInt. rewrite E.
    destruct (dec_facts _ Hc) as (W & M & P & _).
    cbn [trim_start]. rewrite W, M, P. revert X R.
    destruct r as [|cx t];
      [|destruct (Ascii.eqb c "0"%char
                  && (Ascii.eqb cx "x"%char || Ascii.eqb cx "X"%char));
        [discriminate|]];
      intros _ ->; rewrite andb_false_r; f_equal; lia.
  - intros N. unfold parseInt. cbn [trim_start]. change (is_white "-") with false.
    cbn iota. rewrite Ascii.eqb_refl. rewrite E. revert X R.
    destruct r as [|cx t];
      [|destruct (Ascii.eqb c "0"%char
                  && (Ascii.eqb cx "x"%char || Ascii.eqb cx "X"%char));
        [discriminate|]];
      intros _ ->; (destruct (Z.eqb_spec v 0) as [?|_]; [contradiction|]);
      cbn [andb]; f_equal; lia.
Qed.

(** *** The text of a number *)

Lemma reads_as_true (x v : Z) : reads_as x v = true -> to_number v = Num x.
Proof.
  unfold reads_as. destruct (to_number v) as [|y| |b]; try discriminate.
  intros E. apply Z.eqb_eq in E. now subst.
Qed.

Lemma nearest_multiple_some (x p v : Z) :
  nearest_multiple x p = Some v ->
  to_number v = Num x /\ (v = (x / p * p)%Z \/ v = (x / p * p + p)%Z).
Proof.
  unfold nearest_multiple. cbv zeta.
  destruct (reads_as x (x / p * p)) eqn:A;
    destruct (reads_as x (x / p * p + p)) eqn:B; try discriminate;
    apply reads_as_true in A || clear A; apply reads_as_true in B || clear B.
  - intros [= <-].
    destruct (_ <? _)%Z; [now split; [|left]|].
    destruct (_ <? _)%Z; [now split; [|right]|].
    destruct (Z.even _); [now split; [|left]|now split; [|right]].
  - intros [= <-]. now split; [|left].
  - intros [= <-]. now split; [|right].
Qed.

(** The decimal found is read back as the double, and it is the double
    or one of its neighbours among the multiples of a power of ten. *)
Lemma shortest_from_spec (x : Z) :
  to_number x = Num x ->
  forall j,
    to_number (shortest_from j x) = Num x /\
    (shortest_from j x = x \/
     exists i, i <= j /\
       (shortest_from j x = (x / 10 ^ Z.of_nat i * 10 ^ Z.of_nat i)%Z \/
        shortest_from j x
        = (x / 10 ^ Z.of_nat i * 10 ^ Z.of_nat i + 10 ^ Z.of_nat i)%Z)).
Proof.
  intros R. induction j as [|j IH]; cbn [shortest_from].
  - destruct (nearest_multiple x (10 ^ Z.of_nat 0)) as [v|] eqn:E.
    + apply nearest_multiple_some in E. destruct E as [E1 E2].
      split; [exact E1|]. right. exists 0. split; [lia|exact E2].
    + split; [exact R|now left].
  - destruct (nearest_multiple x (10 ^ Z.of_nat (S j))) as [v|] eqn:E.
    + apply nearest_multiple_some in E. destruct E as [E1 E2].
      split; [exact E1|]. right. exists (S j). split; [lia|exact E2].
    + destruct IH as [IH1 [IH2|(i & Hi & IH2)]].
      * split; [exact IH1|now left].
      * split; [exact IH1|]. right. exists i. split; [lia|exact IH2].
Qed.

Lemma ten_pow_21 : to_number (10 ^ 21) = Num (10 ^ 21).
Proof. vm_compute. reflexivity. Qed.

(** Below 10^21 the decimal stays below 10^21. *)
Lemma shortest_below (x : Z) :
  (0 <= x < 10 ^ 21)%Z -> to_number x = Num x ->
  to_number (shortest x) = Num x /\ (0 <= shortest x < 10 ^ 21)%Z.
Proof.
  intros Hx R. unfold shortest.
  assert (J : length (decimal x) - 1 <= 20).
  { assert (length (decimal x) <= 21)
      by (apply decimal_length; [exact Hx|lia]). lia. }
  destruct (shortest_from_spec R (length (decimal x) - 1))
    as [S1 [S2|(i & Hi & S2)]].
  - split; [exact S1|]. rewrite S2. exact Hx.
  - split; [exact S1|].
    set (v := shortest_from (length (decimal x) - 1) x) in *.
    set (p := (10 ^ Z.of_nat i)%Z) in *.
    assert (P : (0 < p)%Z) by (apply Z.pow_pos_nonneg; lia).
    assert (C : (10 ^ 21 = p * 10 ^ Z.of_nat (21 - i))%Z).
    { subst p. rewrite <- Z.pow_add_r by lia. f_equal. lia. }
    assert (C0 : (0 < 10 ^ Z.of_nat (21 - i))%Z) by (apply Z.pow_pos_nonneg; lia).
    assert (D : (0 <= x / p < 10 ^ Z.of_nat (21 - i))%Z).
    { split; [apply Z.div_pos; lia|]. apply Z.div_lt_upper_bound; lia. }
    assert (L : (x / p * p <= x)%Z) by (rewrite Z.mul_comm; apply Z.mul_div_le; lia).
    destruct S2 as [S2|S2].
    + rewrite S2. nia.
    + assert (U : (v <= 10 ^ 21)%Z) by (rewrite S2, C; nia).
      assert (N : v <> (10 ^ 21)%Z).
      { intros E. rewrite E, ten_pow_21 in S1. injection S1 as S1. lia. }
      split; [rewrite S2; nia|lia].
Qed.

Lemma to_number_0 (v x : Z) : to_number v = Num x -> x <> 0%Z -> v <> 0%Z.
Proof. intros E N ->. change (to_number 0) with (Num 0) in E. congruence. Qed.

Lemma natural_to_string_below (x : Z) :
  (0 <= x < 10 ^ 21)%Z -> to_number x = Num x ->
  natural_to_string x = decimal (shortest x).
Proof.
  intros Hx R. destruct (shortest_below Hx R) as [_ B].
  unfold natural_to_string. cbv zeta.
  assert (L : length (decimal (shortest x)) <= 21)
    by (apply decimal_length; [exact B|lia]).
  apply Nat.leb_le in L. now rewrite L.
Qed.

(** [parseInt] undoes the printing of an integer below 10^21 that is a
    double, and nothing that follows the digits counts. *)
Lemma parseInt_number (z : Z) (tail : str) :
  to_number z = Num z -> (Z.abs z < 10 ^ 21)%Z -> stops_number tail ->
  parseInt (number_to_string z ++ tail) = Num z.
Proof.
  intros R B St. unfold number_to_string. rewrite R. cbn [to_string].
  destruct (Z.ltb_spec z 0) as [L|L].
  - assert (R' : to_number (- z) = Num (- z)).
    { rewrite to_number_opp by lia. now rewrite R. }
    assert (Hx : (0 <= - z < 10 ^ 21)%Z) by lia.
    rewrite (natural_to_string_below Hx R').
    destruct (shortest_below Hx R') as [S1 S2].
    assert (N : shortest (- z) <> 0%Z) by (apply (to_number_0 S1); lia).
    cbn [app].
    destruct (@parseInt_decimal (shortest (- z)) tail) as [_ P];
      [lia|exact St|].
    rewrite (P N), to_number_opp by exact N. rewrite S1. simpl.
    f_equal. lia.
  - assert (Hx : (0 <= z < 10 ^ 21)%Z) by lia.
    rewrite (natural_to_string_below Hx R).
    destruct (shortest_below Hx R) as [S1 S2].
    destruct (@parseInt_decimal (shortest z) tail) as [P _]; [lia|exact St|].
    now rewrite P.
Qed.

(** From 10^21 on the text has an exponent, of which [parseInt] reads
    the first digit alone. *)
Lemma parseInt_exponent :
  number_to_string (10 ^ 21) = lit "1e+21" /\
  parseInt (number_to_string (10 ^ 21)) = Num 1 /\
  number_to_string (2 ^ 70) = lit "1.1805916207174113e+21" /\
  parseInt (number_to_string (2 ^ 70)) = Num 1.
Proof. vm_compute. repeat split; reflexivity. Qed.

(** *** What [parseInt] returns *)

Lemma trim_start_length (s : str) : length (trim_start s) <= length s.
Proof.
  induction s as [|c s IH]; simpl; [lia|].
  destruct (is_white c); simpl; lia.
Qed.

(** The three steps of [parseInt]: the sign, the radix with the text of
    the digits, and the Number value of what the digits say. *)
Lemma parseInt_steps (s : str) :
  exists sign radix s3,
    (sign = 1%Z \/ sign = (-1)%Z) /\
    (match trim_start s with c :: _ => c <> "-"%char | [] => True end ->
     sign = 1%Z) /\
    (radix = 10%Z \/ radix = 16%Z) /\ length s3 <= length s /\
    parseInt s =
    match read_digits radix None s3 with
    | Some v =>
        if (v =? 0)%Z && (sign =? -1)%Z then NegZero else to_number (sign * v)
    | None => NaN
    end.
Proof.
  unfold parseInt. pose proof (trim_start_length s) as T.
  assert (G : forall sign s2,
    (sign = 1%Z \/ sign = (-1)%Z) -> length s2 <= length s ->
    exists radix s3,
      (radix = 10%Z \/ radix = 16%Z) /\ length s3 <= length s /\
      (let (radix, s3) :=
         match s2 with
         | c0 :: cx :: t =>
             if Ascii.eqb c0 "0"%char
                && (Ascii.eqb cx "x"%char || Ascii.eqb cx "X"%char)
             then (16%Z, t) else (10%Z, s2)
         | _ => (10%Z, s2)
         end in
       match read_digits radix None s3 with
       | Some v =>
           if (v =? 0)%Z && (sign =? -1)%Z then NegZero
           else to_number (sign * v)
       | None => NaN
       end) =
      match read_digits radix None s3 with
      | Some v =>
          if (v =? 0)%Z && (sign =? -1)%Z then NegZero
          else to_number (sign * v)
      | None => NaN
      end).
  { intros sign s2 _ L.
    destruct s2 as [|c0 [|cx t]];
      try destruct (Ascii.eqb c0 "0"%char
                    && (Ascii.eqb cx "x"%char || Ascii.eqb cx "X"%char));
      eexists; eexists; (split; [|split; [|reflexivity]]);
      try (now left); try (now right); simpl in *; lia. }
  destruct (trim_start s) as [|c t] eqn:E.
  - destruct (G 1%Z []) as (radix & s3 & H1 & H2 & H3); [now left|simpl; lia|].
    exists 1%Z, radix, s3. repeat split; try assumption. now left.
  - destruct (Ascii.eqb_spec c "-"%char) as [->|Nm].
    + destruct (G (-1)%Z t) as (radix & s3 & H1 & H2 & H3);
        [now right|simpl in T; lia|].
      exists (-1)%Z, radix, s3. repeat split; try assumption; [now right|].
      intros C. congruence.
    + destruct (Ascii.eqb c "+"%char).
      * destruct (G 1%Z t) as (radix & s3 & H1 & H2 & H3);
          [now left|simpl in T; lia|].
        exists 1%Z, radix, s3. repeat split; try assumption. now left.
      * destruct (G 1%Z (c :: t)) as (radix & s3 & H1 & H2 & H3);
          [now left|lia|].
        exists 1%Z, radix, s3. repeat split; try assumption. now left.
Qed.

Lemma digit_value_bound (radix : Z) (c : ascii) (d : Z) :
  digit_value radix c = Some d -> (0 <= d < radix)%Z.
Proof.
  unfold digit_value.
  set (n := Z.of_nat (nat_of_ascii c)).
  destruct ((48 <=? n)%Z && (n <=? 57)%Z) eqn:E1.
  - destruct (Z.ltb_spec (n - 48) radix); [|discriminate]. intros [= <-]. lia.
  - destruct ((97 <=? n)%Z && (n <=? 122)%Z) eqn:E2.
    + destruct (Z.ltb_spec (n - 87) radix); [|discriminate]. intros [= <-]. lia.
    + destruct ((65 <=? n)%Z && (n <=? 90)%Z) eqn:E3; [|discriminate].
      destruct (Z.ltb_spec (n - 55) radix); [|discriminate]. intros [= <-]. lia.
Qed.

(** The digits read say a natural number below the radix to the power
    of their count. *)
Lemma read_digits_bound (radix : Z) (s : str) :
  (0 < radix)%Z ->
  forall acc v,
    read_digits radix acc s = Some v ->
    match acc with
    | Some a =>
        forall b, (0 <= a < b)%Z -> (0 <= v < b * radix ^ Z.of_nat (length s))%Z
    | None => (0 <= v < radix ^ Z.of_nat (length s))%Z
    end.
Proof.
  intros Hr. induction s as [|c s IH]; intros acc v; cbn [read_digits length].
  - intros ->. intros b Hb. simpl. lia.
  - assert (P : (radix ^ Z.of_nat (S (length s))
                 = radix * radix ^ Z.of_nat (length s))%Z)
      by (rewrite Nat2Z.inj_succ, Z.pow_succ_r; lia).
    assert (P0 : (0 < radix ^ Z.of_nat (length s))%Z)
      by (apply Z.pow_pos_nonneg; lia).
    destruct (digit_value radix c) as [d|] eqn:E.
    + apply digit_value_bound in E. intros H. apply IH in H. cbv beta iota in H.
      destruct acc as [a|].
      * intros b Hb. rewrite P.
        specialize (H (b * radix)%Z). nia.
      * rewrite P. specialize (H radix). nia.
    + intros ->. intros b Hb. rewrite P. nia.
Qed.

(** Below 2^1023 in magnitude the Number value is finite. *)
Lemma to_number_finite (m : Z) :
  (Z.abs m < 2 ^ 1023)%Z -> exists y, to_number m = Num y.
Proof.
  intros B. unfold to_number.
  destruct (Z.ltb_spec (Z.abs m) (2 ^ 53)) as [_|L]; [now exists m|].
  cbv zeta. set (a := Z.abs m) in *. set (e := (Z.log2 a - 52)%Z).
  assert (A : (0 < a)%Z) by lia.
  assert (Le : (53 <= Z.log2 a)%Z) by (apply Z.log2_le_pow2; lia).
  assert (E : (0 <= e)%Z) by (subst e; lia).
  assert (P : (0 < 2 ^ e)%Z) by (apply Z.pow_pos_nonneg; lia).
  assert (X : (2 ^ e <= a)%Z).
  { apply Z.le_trans with (2 ^ Z.log2 a)%Z.
    - apply Z.pow_le_mono_r; subst e; lia.
    - apply Z.log2_spec. exact A. }
  assert (Q : (Z.shiftr a e * 2 ^ e <= a)%Z).
  { rewrite Z.shiftr_div_pow2 by exact E. rewrite Z.mul_comm.
    apply Z.mul_div_le. exact P. }
  match goal with
  | |- context [Z.shiftl ?q e] =>
      match q with
      | (if _ then _ else _) =>
          assert (V : (Z.shiftl q e <= a + 2 ^ e)%Z)
      end
  end.
  { rewrite Z.shiftl_mul_pow2 by exact E. destruct (_ || _); nia. }
  match goal with
  | |- context [(2 ^ 1024 <=? ?v)%Z] =>
      destruct (Z.leb_spec (2 ^ 1024) v) as [O|_]; [|eexists; reflexivity]
  end.
  exfalso. change (2 ^ 1024)%Z with (2 * 2 ^ 1023)%Z in O. lia.
Qed.


(** Without a minus sign in front, [parseInt] gives no negative number. *)
Lemma parseInt_nonneg (s : str) (z : Z) :
  match trim_start s with c :: _ => c <> "-"%char | [] => True end ->
  parseInt s = Num z -> (0 <= z)%Z.
Proof.
  intros H. destruct (parseInt_steps s) as (sign & radix & s3 & _ & S1 & Hr & _ & ->).
  rewrite (S1 H). destruct (read_digits radix None s3) as [v|] eqn:E; [|discriminate].
  apply read_digits_bound in E; [|destruct Hr; subst; lia].
  rewrite andb_false_r, Z.mul_1_l. apply to_number_nonneg. lia.
Qed.

(** A text of at most 255 characters is read as a finite number. *)
Lemma parseInt_finite (s : str) :
  length s <= 255 -> parseInt s = NaN \/ parseInt s = NegZero \/
                     exists z, parseInt s = Num z.
Proof.
  intros L. destruct (parseInt_steps s) as (sign & radix & s3 & Hs & _ & Hr & L3 & ->).
  destruct (read_digits radix None s3) as [v|] eqn:E; [|now left].
  right. destruct ((v =? 0)%Z && (sign =? -1)%Z); [now left|]. right.
  apply to_number_finite.
  apply read_digits_bound in E; [|destruct Hr; subst; lia].
  assert (B : (radix ^ Z.of_nat (length s3) <= 16 ^ 255)%Z).
  { apply Z.le_trans with (16 ^ Z.of_nat (length s3))%Z.
    - apply Z.pow_le_mono_l. destruct Hr; subst; lia.
    - apply Z.pow_le_mono_r; lia. }
  assert (C : (16 ^ 255 < 2 ^ 1023)%Z) by (vm_compute; reflexivity).
  destruct Hs; subst sign; lia.
Qed.

(** The quantity kept by the add form is a true value, so neither
    [NaN] nor a zero.  Unless the typed text starts (after whitespace)
    with a minus sign, it is an integer that is at least one, or the
    positive infinity, which a run of digits beyond the range of the
    doubles is read as; a text of at most 255 characters always gives
    an integer other than zero. *)
Theorem add_form_quantity (value : str) (fd : formData) :
  truthy (quantity (change_quantity value fd)) = true /\
  (match trim_start value with c :: _ => c <> "-"%char | [] => True end ->
   quantity (change_quantity value fd) = Infinity false \/
   valid_quantity (quantity (change_quantity value fd))) /\
  (length value <= 255 ->
   exists z, quantity (change_quantity value fd) = Num z /\ z <> 0%Z).
Proof.
  split; [apply QuantityFacts.change_quantity_truthy|]. split.
  - intros H. unfold change_quantity, or_else. simpl.
    destruct (parseInt value) as [|z| |b] eqn:E; simpl; try (right; lia).
    + apply (parseInt_nonneg _ H) in E.
      destruct (Z.eqb_spec z 0); simpl; right; lia.
    + destruct (parseInt_steps value) as (sign & radix & s3 & _ & S1 & Hr & _ & P).
      rewrite P, (S1 H) in E.
      destruct (read_digits radix None s3) as [v|] eqn:R; [|discriminate].
      apply read_digits_bound in R; [|destruct Hr; subst; lia].
      rewrite andb_false_r, Z.mul_1_l in E. unfold to_number in E.
      destruct (Z.abs v <? 2 ^ 53)%Z; [discriminate|]. cbv zeta in E.
      destruct (2 ^ 1024 <=? _)%Z; [|discriminate]. injection E as <-.
      left. f_equal. apply Z.ltb_ge. lia.
  - intros L. pose proof (QuantityFacts.change_quantity_truthy value fd) as T.
    revert T. unfold change_quantity, or_else. simpl.
    destruct (parseInt_finite value L) as [->|[->|[z ->]]]; simpl.
    + intros _. exists 1%Z. split; [reflexivity|discriminate].
    + intros _. exists 1%Z. split; [reflexivity|discriminate].
    + destruct (Z.eqb_spec z 0); simpl.
      * intros _. exists 1%Z. split; [reflexivity|discriminate].
      * intros _. now exists z.
Qed.

(** A run of 309 nines is beyond the doubles: the add form keeps the
    positive infinity, which is not an integer. *)
Lemma add_form_keeps_infinity :
  quantity (change_quantity (repeat "9"%char 309) initial_form) = Infinity false.
Proof. vm_compute. reflexivity. Qed.

(** Saving an edit sends the number whose digits stand in the quantity
    field, whatever follows them: for a quantity that is a double below
    10^21, the field as the browser filled it gives back the item's
    quantity, and a decimal fraction is cut off.  The add form reads
    the same number when it is not zero. *)
Theorem quantity_text_round_trip
  (z : Z) (tail name_value details_value : str) (fd : formData) :
  to_number z = Num z -> (Z.abs z < 10 ^ 21)%Z -> stops_number tail ->
  p_quantity (save_edit name_value (default_quantity_value z ++ tail)
                        details_value) = Num z /\
  (z <> 0%Z ->
   quantity (change_quantity (default_quantity_value z ++ tail) fd) = Num z).
Proof.
  intros R B St. unfold save_edit, change_quantity, default_quantity_value. simpl.
  rewrite (parseInt_number tail R B St). split; [reflexivity|].
  intros N. unfold or_else. simpl.
  destruct (Z.eqb_spec z 0); [contradiction|reflexivity].
Qed.

Lemma quantity_text_witness :
  to_number (2 ^ 69) = Num (2 ^ 69) /\ (Z.abs (2 ^ 69) < 10 ^ 21)%Z /\
  stops_number (lit ".5") /\
  default_quantity_value (2 ^ 69) = lit "590295810358705700000" /\
  p_quantity (save_edit (lit "Hammer") (default_quantity_value (2 ^ 69) ++ lit ".5")
                        (lit "")) = Num (2 ^ 69) /\
  ((2 ^ 69)%Z <> 0%Z ->
   quantity (change_quantity (default_quantity_value (2 ^ 69) ++ lit ".5")
                             initial_form)
   = Num (2 ^ 69)).
Proof.
  assert (R : to_number (2 ^ 69) = Num (2 ^ 69)) by (vm_compute; reflexivity).
  assert (B : (Z.abs (2 ^ 69) < 10 ^ 21)%Z) by (vm_compute; reflexivity).
  assert (S : stops_number (lit ".5"))
    by (repeat split; try reflexivity; discriminate).
  split; [exact R|]. split; [exact B|]. split; [exact S|].
  split; [vm_compute; reflexivity|].
  exact (@quantity_text_round_trip (2 ^ 69) (lit ".5") (lit "Hammer") (lit "")
           initial_form R B S).
Defined.

(** *** The characters of a number's text *)

Lemma significant_chars (ds : str) (c : ascii) :
  In c (significant ds) -> In c ds.
Proof.
  unfold significant. intros H. apply in_rev in H. apply in_rev.
  revert H. generalize (rev ds). intros l. induction l as [|a l IH]; simpl; [easy|].
  destruct (Ascii.eqb a "0"); [intros H; right; now apply IH|easy].
Qed.

Lemma dec_number_char (c : ascii) : is_dec c = true -> is_number_char c = true.
Proof. unfold is_number_char. now intros ->. Qed.

Lemma lit_number_char (s : string) (c : ascii) :
  forallb is_number_char (lit s) = true -> In c (lit s) -> is_number_char c = true.
Proof. intros F H. rewrite forallb_forall in F. now apply F. Qed.

Lemma natural_to_string_chars (x : Z) (c : ascii) :
  In c (natural_to_string x) -> is_number_char c = true.
Proof.
  unfold natural_to_string. cbv zeta.
  pose proof (decimal_chars (shortest x)) as D. rewrite Forall_forall in D.
  destruct (_ <=? 21); [intros H; now apply dec_number_char, D|].
  assert (S : forall a, In a (significant (decimal (shortest x))) ->
                        is_number_char a = true).
  { intros a H. now apply dec_number_char, D, significant_chars. }
  assert (E : forall n a, In a (lit "e+" ++ decimal n) -> is_number_char a = true).
  { intros n a H. apply in_app_iff in H. destruct H as [H|H].
    - now apply (@lit_number_char "e+").
    - pose proof (decimal_chars n) as Dn. rewrite Forall_forall in Dn.
      now apply dec_number_char, Dn. }
  destruct (significant (decimal (shortest x))) as [|d [|d' more]]; [intros []| |].
  - intros [<-|H]; [apply S; now left|now apply E in H].
  - intros [<-|[<-|H]]; [apply S; now left|reflexivity|].
    change (d' :: more ++ lit "e+" ++ decimal (Z.of_nat (length (decimal (shortest x)) - 1)))
      with ((d' :: more) ++ lit "e+" ++ decimal (Z.of_nat (length (decimal (shortest x)) - 1))) in H.
    apply in_app_iff in H. destruct H as [H|H]; [|now apply E in H].
    apply S. now right.
Qed.

(** The text of a number holds digits, a sign, a point, the letter of
    the exponent and the letters of [Infinity] and [NaN], and so
    neither a comma, a line break nor a double quote. *)
Lemma number_to_string_chars (z : Z) (c : ascii) :
  In c (number_to_string z) -> is_number_char c = true.
Proof.
  unfold number_to_string. destruct (to_number z) as [|y| |[|]]; cbn [to_string].
  - now apply (@lit_number_char "NaN").
  - destruct (y <? 0)%Z.
    + intros [<-|H]; [reflexivity|now apply natural_to_string_chars in H].
    + apply natural_to_string_chars.
  - now apply (@lit_number_char "0").
  - now apply (@lit_number_char "-Infinity").
  - now apply (@lit_number_char "Infinity").
Qed.

End FormFacts.

(* ================================================================== *)
(** ** Direct entry, and more on the codec *)
(* ================================================================== *)

Module NavFacts.
Import JS JSFacts Codec CodecFacts Forms FormFacts Nav.

(** No occurrence of the separator lies inside the text before its
    first occurrence. *)
Lemma first_at_clean (sep pre rest : str) :
  sep <> [] -> first_at sep pre rest -> includes pre sep = false.
Proof.
  intros Hsep F. destruct (includes pre sep) eqn:I; [|reflexivity].
  apply includes_iff in I. destruct I as (a & b & ->). exfalso.
  apply (F (length a)).
  - rewrite !length_app. destruct sep; [congruence|simpl; lia].
  - unfold occurs_at. rewrite <- !app_assoc.
    rewrite skipn_app, skipn_all, Nat.sub_diag. simpl.
    apply starts_with_app.
Qed.

(** The identifier the scanner navigates to never holds the marker
    [/box/] itself. *)
Theorem decoded_id_has_no_marker (text id : str) :
  decode text = Some id -> includes id marker = false.
Proof.
  unfold decode. destruct (includes text marker) eqn:I.
  - destruct (first_marker _ I) as (pre & rest & -> & F).
    rewrite (split_second marker_nonempty F).
    destruct (break_at marker rest) as [[mid post]|] eqn:B; intros [= <-].
    + apply break_at_some in B. destruct B as [_ Fm].
      now apply (first_at_clean marker_nonempty Fm).
    + now apply break_at_none.
  - destruct (uuid_match text); [|discriminate]. now intros [= <-].
Qed.

Lemma decoded_id_witness :
  decode (lit "http://h/box/abc/box/def") = Some (lit "abc") /\
  includes (lit "abc") marker = false.
Proof.
  split; [reflexivity|].
  apply (@decoded_id_has_no_marker (lit "http://h/box/abc/box/def")).
  reflexivity.
Defined.

(** The locator recogniser does not look at the shape of the
    identifier: for a host other than [box], the locator of any
    identifier without the marker decodes to it. *)
Theorem locator_round_trip (scheme host id : str) :
  slash_free scheme = true -> slash_free host = true ->
  host <> lit "box" -> includes id marker = false ->
  decode (qr_url (scheme ++ lit "://" ++ host) id) = Some id.
Proof.
  intros Ss Sh N I.
  assert (B : break_at marker (qr_url (scheme ++ lit "://" ++ host) id)
              = Some (scheme ++ lit "://" ++ host, id)).
  { unfold qr_url. rewrite <- !app_assoc.
    rewrite (break_at_slash_free scheme _ Ss).
    change (lit "://" ++ host ++ marker ++ id)
      with (":"%char :: "/"%char :: "/"%char :: host ++ marker ++ id).
    cbn [break_at].
    rewrite (starts_with_marker_slash ":"%char _ eq_refl).
    replace (starts_with marker ("/"%char :: "/"%char :: host ++ marker ++ id))
      with false by reflexivity.
    rewrite (host_not_box id Sh N).
    rewrite (break_at_slash_free host _ Sh).
    rewrite break_at_head by apply starts_with_app.
    rewrite skipn_app, skipn_all, Nat.sub_diag, app_nil_r. reflexivity. }
  apply break_at_some in B. destruct B as [E F].
  unfold qr_url in *. rewrite (decode_at_first_marker F).
  apply break_at_none in I. now rewrite I.
Qed.

Lemma locator_round_trip_witness :
  slash_free (lit "https") = true /\ slash_free (lit "example.local") = true /\
  lit "example.local" <> lit "box" /\ includes (lit "b1") marker = false /\
  decode (qr_url (lit "https" ++ lit "://" ++ lit "example.local") (lit "b1"))
  = Some (lit "b1").
Proof.
  split; [reflexivity|]. split; [reflexivity|]. split; [discriminate|].
  split; [reflexivity|].
  apply (@locator_round_trip (lit "https") (lit "example.local") (lit "b1"));
    try reflexivity.
  discriminate.
Defined.

Lemma hex_not_white (c : ascii) :
  is_hex c = true -> Quantity.is_white c = false.
Proof.
  destruct c as [[] [] [] [] [] [] [] []]; intros H; try discriminate H; reflexivity.
Qed.

Lemma uuid_no_white (id : str) :
  uuid_match id = true -> Forall (fun c => Quantity.is_white c = false) id.
Proof.
  intros H. apply uuid_match_iff in H.
  destruct H as (g1 & g2 & g3 & g4 & g5 & -> & G1 & G2 & G3 & G4 & G5).
  assert (G : forall n g, hex_group n g ->
                          Forall (fun c => Quantity.is_white c = false) g).
  { intros n g [_ F]. eapply Forall_impl; [|exact F]. apply hex_not_white. }
  repeat (apply Forall_app; split); eauto; repeat constructor.
Qed.

(** Typing a box identifier into the entry of the navigation bar, with
    or without blanks around it, leads to the page that scanning the
    box's label leads to, and clears the entry; a blank entry changes
    nothing. *)
Theorem direct_entry_reaches_scanned_box
  (scheme host id ws1 ws2 blank_text : str) (st : ui) :
  slash_free scheme = true -> slash_free host = true ->
  host <> lit "box" -> uuid_match id = true ->
  all_white ws1 -> all_white ws2 -> all_white blank_text ->
  let typed := handleDirectNavigation
                 {| ui_state := st; directBoxId := ws1 ++ id ++ ws2 |} in
  path (ui_state typed) = marker ++ id /\
  path (ui_state typed)
  = path (onScanSuccess (qr_url (scheme ++ lit "://" ++ host) id) st) /\
  directBoxId typed = [] /\
  handleDirectNavigation {| ui_state := st; directBoxId := blank_text |}
  = {| ui_state := st; directBoxId := blank_text |}.
Proof.
  intros Ss Sh N U W1 W2 Wb. cbv zeta.
  assert (T : Quantity.trim (ws1 ++ id ++ ws2) = id)
    by (apply trim_padded; try assumption; now apply uuid_no_white).
  assert (Ne : id <> []) by (intros ->; discriminate U).
  unfold handleDirectNavigation. cbn [directBoxId ui_state]. rewrite T.
  destruct id as [|c t] eqn:Eid; [congruence|]. rewrite <- Eid in *.
  cbn [ui_state directBoxId navigate path].
  split; [now rewrite Eid|]. split; [|split; [reflexivity|]].
  - rewrite onScanSuccess_decode. cbn [path].
    rewrite round_trip_unless_host_is_box by assumption. now rewrite Eid.
  - apply trim_nil in Wb. now rewrite Wb.
Qed.

Lemma direct_entry_witness :
  let typed := handleDirectNavigation
                 {| ui_state := {| path := lit "/"; showScanner := false |};
                    directBoxId := lit " " ++ sample_id ++ lit "  " |} in
  path (ui_state typed) = marker ++ sample_id /\
  path (ui_state typed)
  = path (onScanSuccess (qr_url (lit "https" ++ lit "://" ++ lit "example.local")
                                sample_id)
                        {| path := lit "/"; showScanner := false |}) /\
  directBoxId typed = [] /\
  handleDirectNavigation
    {| ui_state := {| path := lit "/"; showScanner := false |};
       directBoxId := lit "  " |}
  = {| ui_state := {| path := lit "/"; showScanner := false |};
       directBoxId := lit "  " |}.
Proof.
  apply (@direct_entry_reaches_scanned_box (lit "https") (lit "example.local")
           sample_id (lit " ") (lit "  ") (lit "  ")
           {| path := lit "/"; showScanner := false |});
    try reflexivity; try discriminate; repeat constructor.
Defined.

(** A scanned text of the identifier shape is taken as it stands, in
    the case it was written in: it has 36 characters and no slash, so
    it is never read as a locator. *)
Theorem bare_identifier_is_kept (text : str) :
  uuid_match text = true ->
  decode text = Some text /\ length text = 36 /\ includes text marker = false.
Proof.
  intros U.
  assert (I : includes text marker = false)
    by now apply slash_free_no_marker, uuid_slash_free.
  split; [|split; [|exact I]].
  - unfold decode. now rewrite I, U.
  - apply uuid_match_iff in U.
    destruct U as (g1 & g2 & g3 & g4 & g5 & -> & [L1 _] & [L2 _] & [L3 _]
                   & [L4 _] & [L5 _]).
    rewrite !length_app. simpl. lia.
Qed.

Lemma bare_identifier_witness :
  uuid_match (lit "123E4567-e89b-12d3-A456-426614174000") = true /\
  decode (lit "123E4567-e89b-12d3-A456-426614174000")
  = Some (lit "123E4567-e89b-12d3-A456-426614174000").
Proof.
  split; [reflexivity|].
  refine (proj1 (@bare_identifier_is_kept
                   (lit "123E4567-e89b-12d3-A456-426614174000") _)).
  reflexivity.
Defined.

End NavFacts.

(* ================================================================== *)
(** ** The CSV export *)
(* ================================================================== *)

Module CsvFacts.
Import JS JSFacts JSNumber Forms FormFacts Csv.

Lemma starts_with_char (c : ascii) (s : str) :
  starts_with [c] s = true <-> exists t, s = c :: t.
Proof. rewrite starts_with_iff. reflexivity. Qed.

Lemma break_at_char_free (c : ascii) (x : str) :
  ~ In c x ->
  break_at [c] x = None /\
  forall rest, break_at [c] (x ++ c :: rest) = Some (x, rest).
Proof.
  induction x as [|a x IH]; intros N.
  - split; [reflexivity|]. intros rest. simpl. now rewrite Ascii.eqb_refl.
  - assert (Na : Ascii.eqb c a = false)
      by (apply Ascii.eqb_neq; intros ->; apply N; now left).
    destruct IH as [IH1 IH2]; [intros H; apply N; now right|].
    split.
    + simpl. rewrite Na. simpl. change (break_at [c] x) with (break_at [c] x).
      now rewrite IH1.
    + intros rest. simpl. rewrite Na. simpl. now rewrite IH2.
Qed.

Lemma join_cons (sep x : str) (l : list str) :
  l <> [] -> join sep (x :: l) = x ++ sep ++ join sep l.
Proof. destruct l; [congruence|reflexivity]. Qed.

(** Splitting at a character undoes joining with it, when no piece
    holds the character. *)
Lemma split_join_char (c : ascii) (l : list str) :
  l <> [] -> (forall x, In x l -> ~ In c x) ->
  JS.split (join [c] l) [c] = l.
Proof.
  intros Hl Hc. unfold JS.split.
  destruct l as [|x l]; [congruence|]. clear Hl.
  assert (G : forall n, length (join [c] (x :: l)) < n ->
                        JS.split_loop n [c] (join [c] (x :: l)) = x :: l).
  { revert x Hc. induction l as [|y l IH]; intros x Hc n Hn.
    - destruct n as [|n]; [inversion Hn|].
      destruct (@break_at_char_free c x) as [B1 _]; [apply Hc; now left|].
      simpl. now rewrite B1.
    - destruct n as [|n]; [inversion Hn|].
      destruct (@break_at_char_free c x) as [_ B2]; [apply Hc; now left|].
      rewrite join_cons in * by discriminate. simpl JS.split_loop.
      change ([c] ++ join [c] (y :: l)) with (c :: join [c] (y :: l)).
      rewrite B2. f_equal. apply IH.
      + intros z Hz. apply Hc. now right.
      + rewrite length_app in Hn. simpl in Hn. simpl. lia. }
  apply G. lia.
Qed.

Lemma in_join (c : ascii) (sep : str) (l : list str) :
  In c (join sep l) -> In c sep \/ exists x, In x l /\ In c x.
Proof.
  induction l as [|x l IH]; [intros []|].
  destruct l as [|y l].
  - simpl. intros H. right. exists x. split; [now left|exact H].
  - rewrite join_cons by discriminate. rewrite !in_app_iff.
    intros [H|[H|H]].
    + right. exists x. split; [now left|exact H].
    + now left.
    + destruct (IH H) as [H'|(z & Hz & Hc)]; [now left|].
      right. exists z. split; [now right|exact Hc].
Qed.

Lemma cell_text_free (c : ascii) (v : value) :
  c <> dquote -> is_number_char c = false ->
  value_free c v -> ~ In c (join_elem (cell v)).
Proof.
  intros Nq Nn F. destruct v as [s|z| |name|]; simpl; try contradiction.
  - destruct (includes s [comma]); simpl; [|exact F].
    rewrite in_app_iff. simpl. intros [E|[H|[E|[]]]]; try congruence;
      now apply F.
  - intros H. apply number_to_string_chars in H. congruence.
  - intros [].
Qed.

Lemma includes_char (c : ascii) (s : str) : includes s [c] = true <-> In c s.
Proof.
  rewrite includes_iff. split.
  - intros (a & b & ->). apply in_app_iff. right. now left.
  - intros H. apply in_split in H. destruct H as (a & b & ->). now exists a, b.
Qed.

Lemma cell_comma_free (v : value) : value_free comma v -> cell v = v.
Proof.
  destruct v as [s|z| |name|]; simpl; try reflexivity. intros F.
  destruct (includes s [comma]) eqn:E; [|reflexivity].
  apply includes_char in E. contradiction.
Qed.

Lemma row_line_free (c : ascii) (headers : list str) (r : row) :
  c <> dquote -> c <> comma -> is_number_char c = false ->
  (forall h, In h headers -> value_free c (get h r)) ->
  ~ In c (row_line headers r).
Proof.
  intros Nq Nc Nn F H. unfold row_line in H. apply in_join in H.
  destruct H as [[E|[]]|(x & Hx & Hc)]; [congruence|].
  apply in_map_iff in Hx. destruct Hx as (h & <- & Hh).
  revert Hc. apply cell_text_free; auto.
Qed.

(** An export of data without line breaks has one line for the headers
    and one line per row, in the order of the rows. *)
Theorem csv_has_a_line_per_row (first : row) (rest : list row) :
  data_free newline (map fst first) (first :: rest) ->
  JS.split (convertToCSV (first :: rest)) [newline]
  = join [comma] (map fst first)
    :: map (row_line (map fst first)) (first :: rest) /\
  length (JS.split (convertToCSV (first :: rest)) [newline])
  = S (length (first :: rest)).
Proof.
  intros [Fh Fv].
  assert (E : JS.split (convertToCSV (first :: rest)) [newline]
              = join [comma] (map fst first)
                :: map (row_line (map fst first)) (first :: rest)).
  { unfold convertToCSV. apply split_join_char; [discriminate|].
    intros x [<-|Hx].
    - intros H. apply in_join in H. destruct H as [[E|[]]|(h & Hh & Hc)].
      + discriminate E.
      + now apply (Fh h).
    - apply in_map_iff in Hx. destruct Hx as (r & <- & Hr).
      apply row_line_free; try discriminate; try reflexivity.
      intros h Hh. now apply Fv. }
  split; [exact E|]. rewrite E. simpl. now rewrite length_map.
Qed.

(** A key the row lacks gives what the row inherits under it. *)
Lemma get_missing (h : str) (r : row) :
  ~ In h (map fst r) -> get h r = inherited h.
Proof.
  induction r as [|[k v] r IH]; simpl; [reflexivity|]. intros N.
  destruct (str_eqb h k) eqn:E.
  - apply str_eqb_eq in E. exfalso. apply N. now left.
  - apply IH. intros H. apply N. now right.
Qed.

(** A key that every object inherits is not missing from a row: the
    field of a row without the own key [toString] holds the text of the
    inherited function. *)
Lemma inherited_key_is_not_empty :
  get (lit "toString") [(lit "ID", VStr (lit "b1"))] = VFunction (lit "toString") /\
  row_line [lit "ID"; lit "toString"] [(lit "ID", VStr (lit "b1"))]
  = lit "b1,function toString() { [native code] }" /\
  get (lit "constructor") [] = VFunction (lit "Object") /\
  get (lit "__proto__") [] = VPrototype /\
  get (lit "Details") [(lit "ID", VStr (lit "b1"))] = VUndefined.
Proof. repeat split; reflexivity. Qed.

(** A row whose values hold no comma is written as one field per
    header, which splitting at the commas gives back.  A key the row
    lacks gives an empty field; the row of the hypothesis lacks no key
    that every object inherits, such as [toString], under which the
    field would hold the text of the inherited value. *)
Theorem csv_row_has_a_field_per_header (headers : list str) (r : row) :
  headers <> [] ->
  (forall h, In h headers -> value_free comma (get h r)) ->
  JS.split (row_line headers r) [comma]
  = map (fun h => join_elem (get h r)) headers /\
  length (JS.split (row_line headers r) [comma]) = length headers /\
  (forall h, In h headers -> ~ In h (map fst r) ->
             inherited h = VUndefined /\ get h r = VUndefined /\
             In [] (JS.split (row_line headers r) [comma])).
Proof.
  intros Hh F.
  assert (M : map (fun h => join_elem (cell (get h r))) headers
              = map (fun h => join_elem (get h r)) headers).
  { apply map_ext_in. intros h H. now rewrite cell_comma_free by now apply F. }
  assert (E : JS.split (row_line headers r) [comma]
              = map (fun h => join_elem (get h r)) headers).
  { unfold row_line. rewrite M. apply split_join_char.
    - destruct headers; [congruence|discriminate].
    - intros x Hx. apply in_map_iff in Hx. destruct Hx as (h & <- & H).
      specialize (F h H). destruct (get h r) as [s|z| |name|]; simpl;
        try contradiction.
      + exact F.
      + intros C. apply number_to_string_chars in C. discriminate.
      + intros []. }
  split; [exact E|]. rewrite E. split; [apply length_map|].
  intros h H N. specialize (F h H). rewrite (get_missing h r N) in *.
  assert (U : inherited h = VUndefined).
  { revert F. unfold inherited.
    destruct (str_eqb h (lit "constructor")); [intros []|].
    destruct (str_eqb h (lit "__proto__")); [intros []|].
    destruct (existsb (str_eqb h) prototype_functions); [intros []|reflexivity]. }
  repeat split; try exact U.
  apply in_map_iff. exists h. rewrite (get_missing h r N), U. now split.
Qed.

Section ExportFacts.
Variable formatDate : str -> str.

(** An export of no records is the empty text, without a header line;
    any other export starts with the header line of its kind, and a box
    without location or description has empty fields there. *)
Theorem export_headers
  (box : Matcher.Box) (b : dated Matcher.Box) (boxes : list (dated Matcher.Box))
  (i : dated Matcher.Item) (items : list (dated Matcher.Item)) :
  snd (exportBoxesToCSV formatDate []) = [] /\
  snd (exportToCSV formatDate box []) = [] /\
  (exists body,
     snd (exportBoxesToCSV formatDate (b :: boxes))
     = lit "ID,Name,Location,Description,Item Count,Created At"
       ++ newline :: body) /\
  (exists body,
     snd (exportToCSV formatDate box (i :: items))
     = lit "Item Name,Quantity,Details,Added Date" ++ newline :: body) /\
  (Matcher.box_location (record b) = None ->
   get (lit "Location") (box_row formatDate b) = VStr []) /\
  (Matcher.box_description (record b) = None ->
   get (lit "Description") (box_row formatDate b) = VStr []).
Proof.
  split; [reflexivity|]. split; [reflexivity|].
  split; [eexists; reflexivity|]. split; [eexists; reflexivity|].
  split; intros E; cbn; now rewrite E.
Qed.

End ExportFacts.

Lemma csv_lines_witness :
  data_free newline (map fst [(lit "ID", VStr (lit "b1")); (lit "N", VNum 3)])
    [[(lit "ID", VStr (lit "b1")); (lit "N", VNum 3)];
     [(lit "ID", VStr (lit "b,2"))]] /\
  JS.split (convertToCSV [[(lit "ID", VStr (lit "b1")); (lit "N", VNum 3)];
                          [(lit "ID", VStr (lit "b,2"))]]) [newline]
  = join [comma] (map fst [(lit "ID", VStr (lit "b1")); (lit "N", VNum 3)])
    :: map (row_line (map fst [(lit "ID", VStr (lit "b1")); (lit "N", VNum 3)]))
         [[(lit "ID", VStr (lit "b1")); (lit "N", VNum 3)];
          [(lit "ID", VStr (lit "b,2"))]] /\
  length (JS.split (convertToCSV [[(lit "ID", VStr (lit "b1")); (lit "N", VNum 3)];
                                  [(lit "ID", VStr (lit "b,2"))]]) [newline])
  = 3.
Proof.
  assert (D : data_free newline
                (map fst [(lit "ID", VStr (lit "b1")); (lit "N", VNum 3)])
                [[(lit "ID", VStr (lit "b1")); (lit "N", VNum 3)];
                 [(lit "ID", VStr (lit "b,2"))]]).
  { split.
    - intros h [<-|[<-|[]]] H; simpl in H; intuition discriminate.
    - intros r h [<-|[<-|[]]] [<-|[<-|[]]]; simpl; try exact I;
        intros H; simpl in H; intuition discriminate. }
  split; [exact D|].
  exact (@csv_has_a_line_per_row _ _ D).
Defined.

Lemma csv_row_witness :
  [lit "ID"; lit "N"; lit "Missing"] <> [] /\
  JS.split (row_line [lit "ID"; lit "N"; lit "Missing"]
                     [(lit "ID", VStr (lit "b1")); (lit "N", VNum 3)]) [comma]
  = [lit "b1"; lit "3"; []].
Proof.
  split; [discriminate|].
  refine (proj1 (@csv_row_has_a_field_per_header
                   [lit "ID"; lit "N"; lit "Missing"]
                   [(lit "ID", VStr (lit "b1")); (lit "N", VNum 3)] _ _)).
  - discriminate.
  - intros h [<-|[<-|[<-|[]]]]; simpl; try exact I.
    intros H; simpl in H; intuition discriminate.
Defined.

End CsvFacts.

(* ================================================================== *)
(** ** The highlight formatter on queries without parentheses *)
(* ================================================================== *)

Module HighlightMore.
Import JS JSFacts Regex RegexFacts Highlight HighlightFacts.

Lemma parse_quantifier_plain (r t : regex) (s tail rest : str) :
  paren_free s ->
  parse_quantifier r (s ++ ")"%char :: tail) = Parsed (t, rest) ->
  groups t = groups r /\
  exists s', paren_free s' /\ rest = s' ++ ")"%char :: tail.
Proof.
  intros Ps. unfold parse_quantifier. destruct s as [|c s]; simpl.
  - change (is_quantifier_char ")") with false. cbn iota.
    intros [= <- <-]. split; [reflexivity|]. now exists [].
  - inversion Ps as [|? ? Hc Ps']; subst.
    destruct (is_quantifier_char c).
    + assert (T : groups (if Ascii.eqb c "*"%char then Star r
                          else if Ascii.eqb c "+"%char then Plus r else Opt r)
                  = groups r)
        by (destruct (Ascii.eqb c "*"%char); [reflexivity|];
            destruct (Ascii.eqb c "+"%char); reflexivity).
      destruct s as [|c' s]; simpl.
      * change (Ascii.eqb ")" "?") with false. cbn iota.
        intros [= <- <-]. split; [exact T|]. now exists [].
      * destruct (Ascii.eqb c' "?"%char); [discriminate|].
        intros [= <- <-]. split; [exact T|]. now exists (c' :: s).
    + intros [= <- <-]. split; [reflexivity|]. now exists (c :: s).
Qed.

(** Parsing a text without parentheses up to a closing parenthesis:
    both parsers stop in front of it (an alternative also in front of
    a bar), open no group and build a pattern without groups. *)
Lemma parse_plain (fuel : nat) :
  (forall s tail n r rest n',
     paren_free s ->
     parse_alternative fuel (s ++ ")"%char :: tail) n = Parsed (r, rest, n') ->
     groups r = [] /\ n' = n /\
     exists s', paren_free s' /\ rest = s' ++ ")"%char :: tail /\
                (s' = [] \/ exists s'', s' = "|"%char :: s'')) /\
  (forall s tail n r rest n',
     paren_free s ->
     parse_disjunction fuel (s ++ ")"%char :: tail) n = Parsed (r, rest, n') ->
     groups r = [] /\ n' = n /\ rest = ")"%char :: tail).
Proof.
  induction fuel as [|f [IHa IHd]]; [split; intros; discriminate|]. split.
  - intros s tail n r rest n' Ps. cbn [parse_alternative].
    destruct s as [|c s]; cbn [app].
    + change (Ascii.eqb ")" "|" || Ascii.eqb ")" ")") with true. cbn iota.
      intros [= <- <- <-]. repeat split. exists []. repeat split; [constructor|now left].
    + inversion Ps as [|? ? [Ho Hc] Ps']; subst. rewrite Hc, orb_false_r.
      destruct (Ascii.eqb_spec c "|"%char) as [->|Nb].
      * intros [= <- <- <-]. repeat split. exists ("|"%char :: s).
        repeat split; [exact Ps|]. right. now exists s.
      * destruct (is_unmodelled_char c); [discriminate|].
        destruct (is_quantifier_char c); [discriminate|].
        destruct (Ascii.eqb c "^"%char || Ascii.eqb c "$"%char).
        -- destruct (no_quantifier (s ++ ")"%char :: tail)); [|discriminate].
           destruct (parse_alternative f (s ++ ")"%char :: tail) n)
             as [[[r2 rest2] n2]| |] eqn:E; try discriminate.
           intros [= <- <- <-]. destruct (IHa _ _ _ _ _ _ Ps' E) as (G & Hn & Hs).
           repeat split; [|exact Hn|exact Hs].
           simpl. destruct (Ascii.eqb c "^"%char); exact G.
        -- rewrite Ho.
           destruct (parse_quantifier _ (s ++ ")"%char :: tail))
             as [[t rest1]| |] eqn:Q; try discriminate.
           eapply parse_quantifier_plain in Q; [|exact Ps'].
           destruct Q as (Gt & s1 & Ps1 & ->).
           destruct (parse_alternative f (s1 ++ ")"%char :: tail) n)
             as [[[r2 rest2] n2]| |] eqn:E; try discriminate.
           intros [= <- <- <-]. destruct (IHa _ _ _ _ _ _ Ps1 E) as (G & Hn & Hs).
           repeat split; [|exact Hn|exact Hs].
           simpl. rewrite Gt, G.
           destruct (Ascii.eqb c "."%char); reflexivity.
  - intros s tail n r rest n' Ps. cbn [parse_disjunction].
    destruct (parse_alternative f (s ++ ")"%char :: tail) n)
      as [[[r1 rest1] n1]| |] eqn:E; try discriminate.
    destruct (IHa _ _ _ _ _ _ Ps E) as (G1 & -> & s' & Ps' & -> & Hs').
    destruct Hs' as [->|(s'' & ->)].
    + cbn [app]. change (Ascii.eqb ")" "|") with false. cbn iota.
      intros [= <- <- <-]. now repeat split.
    + cbn [app]. rewrite Ascii.eqb_refl.
      inversion Ps' as [|? ? _ Ps'']; subst.
      destruct (parse_disjunction f (s'' ++ ")"%char :: tail) n)
        as [[[r2 rest2] n2]| |] eqn:D; try discriminate.
      intros [= <- <- <-]. destruct (IHd _ _ _ _ _ _ Ps'' D) as (G2 & Hn & Hr).
      repeat split; [|exact Hn|exact Hr]. simpl. now rewrite G1, G2.
Qed.


(** The pattern built for a query without parentheses: the one group
    around a pattern without groups. *)
Lemma compile_plain (search : str) (r : regex) (n : nat) :
  paren_free search ->
  compile (lit "(" ++ search ++ lit ")") = Parsed (r, n) ->
  exists r', r = Seq (Group 0 r') Empty /\ groups r' = [] /\ n = 1.
Proof.
  intros Ps. unfold compile.
  change (lit "(" ++ search ++ lit ")") with ("("%char :: search ++ ")"%char :: []).
  remember (2 * length ("("%char :: search ++ [")"%char]) + 2) as fuel eqn:Ef.
  destruct fuel as [|[|f]]; try discriminate.
  cbn [parse_disjunction].
  assert (A : forall r1 rest1 n1,
            parse_alternative (S f) ("("%char :: search ++ [")"%char]) 0
            = Parsed (r1, rest1, n1) ->
            exists r', r1 = Seq (Group 0 r') Empty /\ groups r' = [] /\ n1 = 1
                       /\ rest1 = []).
  { intros r1 rest1 n1. cbn [parse_alternative].
    change (Ascii.eqb "(" "|" || Ascii.eqb "(" ")") with false.
    change (is_unmodelled_char "(") with false.
    change (is_quantifier_char "(") with false.
    change (Ascii.eqb "(" "^" || Ascii.eqb "(" "$") with false.
    rewrite Ascii.eqb_refl. cbn iota.
    destruct (search ++ [")"%char]) as [|c' u] eqn:Eu; [discriminate|].
    destruct (Ascii.eqb c' "?"%char); [discriminate|]. rewrite <- Eu.
    destruct (parse_disjunction f (search ++ [")"%char]) 1)
      as [[[r' rest'] n']| |] eqn:D; try discriminate.
    destruct (parse_plain f) as [_ Hd].
    destruct (Hd _ _ _ _ _ _ Ps D) as (G & -> & ->).
    cbn [parse_quantifier].
    destruct f as [|f']; [discriminate|]. cbn [parse_alternative].
    intros [= <- <- <-]. now exists r'. }
  destruct (parse_alternative (S f) ("("%char :: search ++ [")"%char]) 0)
    as [[[r1 rest1] n1]| |] eqn:E; try discriminate.
  destruct (A _ _ _ eq_refl) as (r' & -> & G & -> & ->).
  intros [= <- <-]. now exists r'.
Qed.

Lemma star_from_caps (m : mstate -> list mstate) :
  (forall x y, In y (m x) -> caps y = caps x) ->
  forall n x y, In y (star_from m [] n x) -> caps y = caps x.
Proof.
  intros Hm. induction n as [|n IH]; intros x y; simpl.
  - now intros [<-|[]].
  - rewrite in_app_iff, in_flat_map. intros [(z & Hz & Hy)|[<-|[]]]; [|reflexivity].
    destruct (pos z =? pos x); [destruct Hy|].
    rewrite (IH _ _ Hy). now apply Hm.
Qed.

(** A pattern without groups leaves the captures alone. *)
Lemma matchR_caps (r : regex) :
  groups r = [] -> forall x y, In y (matchR r x) -> caps y = caps x.
Proof.
  induction r as [|c| | | |r1 IH1 r2 IH2|r1 IH1 r2 IH2|n r IH|r IH|r IH|r IH];
    cbn [groups]; intros G x y; cbn [matchR].
  - now intros [<-|[]].
  - destruct (rest x); [intros []|]. destruct (canonicalize _ =? canonicalize _); [|intros []].
    now intros [<-|[]].
  - destruct (rest x); [intros []|]. destruct (is_line_terminator _); [intros []|].
    now intros [<-|[]].
  - destruct (pos x =? 0); [|intros []]. now intros [<-|[]].
  - destruct (rest x); [|intros []]. now intros [<-|[]].
  - apply app_eq_nil in G. destruct G as [G1 G2].
    rewrite in_flat_map. intros (z & Hz & Hy).
    rewrite (IH2 G2 _ _ Hy). now apply IH1.
  - apply app_eq_nil in G. destruct G as [G1 G2].
    rewrite in_app_iff. intros [H|H]; [now apply IH1|now apply IH2].
  - discriminate.
  - rewrite G. apply star_from_caps. now apply IH.
  - rewrite G. rewrite in_flat_map. intros (z & Hz & Hy).
    rewrite (@star_from_caps (matchR r) (IH G) _ _ _ Hy). now apply (IH G) in Hz.
  - rewrite G. rewrite in_app_iff, in_flat_map.
    intros [(z & Hz & Hy)|[<-|[]]]; [|reflexivity].
    destruct (pos z =? pos x); [destruct Hy|]. destruct Hy as [<-|[]].
    now apply (IH G) in Hz.
Qed.

(** A match of the one-group pattern: the capture is the text matched. *)
Lemma exec_at_plain (r' : regex) (s : str) (q : nat) (y : mstate) :
  groups r' = [] -> q <= length s ->
  exec_at (Seq (Group 0 r') Empty) 1 s q = Some y ->
  q <= pos y /\ pos y <= length s /\
  caps y = [Some (substring s q (pos y))].
Proof.
  intros G Hq. unfold exec_at. cbn [repeat].
  set (x := {| rest := skipn q s; pos := q; caps := [None] |}).
  destruct (matchR (Seq (Group 0 r') Empty) x) as [|y0 l] eqn:E;
    [discriminate|]. intros [= <-].
  assert (I : In y0 (matchR (Seq (Group 0 r') Empty) x))
    by (rewrite E; now left).
  cbn [matchR] in I. apply in_flat_map in I. destruct I as (w & Hw & Hy). destruct Hy as [<-|[]].
  apply in_map_iff in Hw. destruct Hw as (z & <- & Hz).
  pose proof (matchR_caps r' G _ _ Hz) as Cz.
  destruct (@matchR_continues r' _ _ Hz) as [k R P L].
  subst x. cbn [rest pos caps set_cap] in *. rewrite length_skipn in L.
  rewrite Cz. cbn [set_nth]. unfold substring. repeat split; try lia.
Qed.

Lemma split_loop_plain (r' : regex) (s : str) :
  groups r' = [] ->
  forall fuel p q parts,
    p <= q -> q <= length s ->
    split_loop fuel (Seq (Group 0 r') Empty) 1 s p q = Some parts ->
    exists strs, parts = map Some strs /\ concat strs = skipn p s.
Proof.
  intros G. induction fuel as [|f IH]; intros p q parts Hpq Hq; [discriminate|].
  cbn [split_loop]. destruct (q <? length s) eqn:Lt.
  - apply Nat.ltb_lt in Lt.
    destruct (exec_at _ 1 s q) as [y|] eqn:X; [|apply IH; lia].
    destruct (@exec_at_plain r' s q y G Hq X) as (Hy1 & Hy2 & Cy).
    cbn zeta. rewrite Nat.min_l by exact Hy2.
    destruct (pos y =? p); [apply IH; lia|].
    destruct (split_loop f _ 1 s (pos y) (pos y)) as [l|] eqn:El; [|discriminate].
    intros [= <-]. destruct (IH _ _ _ (Nat.le_refl _) Hy2 El) as (strs & -> & C).
    exists (substring s p q :: substring s q (pos y) :: strs).
    rewrite Cy. split; [reflexivity|]. simpl. rewrite C.
    rewrite (skipn_substring s Hpq). f_equal. symmetry. now apply skipn_substring.
  - intros [= <-]. exists [substring s p (length s)]. split; [reflexivity|].
    simpl. now rewrite app_nil_r, substring_to_end.
Qed.

Lemma mark_parts_some (search : str) (strs : list str) :
  exists l, mark_parts search (map Some strs) = Returns l /\
            shown l = concat strs.
Proof.
  induction strs as [|x strs (l & E & S)]; simpl.
  - now exists [].
  - rewrite E. eexists. split; [reflexivity|]. unfold shown in *. simpl.
    now rewrite S.
Qed.

(** For a query without parentheses the formatter never fails on an
    undefined capture: either the pattern does not parse (or is outside
    the modelled fragment), or the segments returned concatenate to the
    text. *)
Theorem highlight_without_parentheses (text search : str) :
  paren_free search ->
  highlightMatch text search = Throws SyntaxErr \/
  highlightMatch text search = NotModelled \/
  exists l, highlightMatch text search = Returns l /\ shown l = text.
Proof.
  intros Ps. unfold highlightMatch. destruct search as [|c q] eqn:Es.
  - right. right. eexists. split; [reflexivity|]. apply app_nil_r.
  - rewrite <- Es in *.
    destruct (compile (lit "(" ++ search ++ lit ")")) as [[r n]| |] eqn:C;
      [|now left|right; now left].
    destruct (@compile_plain search r n Ps C) as (r' & -> & G & ->).
    destruct (split text (Seq (Group 0 r') Empty) 1) as [parts|] eqn:Sp;
      [|right; now left].
    right. right.
    assert (P : exists strs, parts = map Some strs /\ concat strs = text).
    { unfold split in Sp. destruct text as [|a t] eqn:Et.
      - destruct (exec_at _ 1 [] 0); injection Sp as <-.
        + now exists [].
        + now exists [[]].
      - rewrite <- Et in *.
        eapply (@split_loop_plain r' text G) in Sp; [exact Sp|lia|lia]. }
    destruct P as (strs & -> & <-). apply mark_parts_some.
Qed.

Lemma highlight_parentheses_witness :
  paren_free (lit "a|b") /\
  (highlightMatch (lit "a|b") (lit "a|b") = Throws SyntaxErr \/
   highlightMatch (lit "a|b") (lit "a|b") = NotModelled \/
   exists l, highlightMatch (lit "a|b") (lit "a|b") = Returns l /\
             shown l = lit "a|b").
Proof.
  assert (P : paren_free (lit "a|b")) by (repeat constructor).
  split; [exact P|].
  exact (@highlight_without_parentheses (lit "a|b") (lit "a|b") P).
Defined.

Lemma highlight_literal_witness :
  lit "tool" <> [] /\ literal_query (lit "tool") /\
  exists l,
    highlightMatch (lit "Garage Tools") (lit "tool") = Returns l /\
    literal_segments (lit "tool") (lit "Garage Tools") l /\
    shown l = lit "Garage Tools".
Proof.
  assert (N : lit "tool" <> []) by discriminate.
  assert (L : literal_query (lit "tool")) by (repeat constructor).
  split; [exact N|]. split; [exact L|].
  exact (@highlight_literal_query (lit "Garage Tools") (lit "tool") N L).
Defined.

End HighlightMore.

(* ================================================================== *)
(** ** Narrowing the location filter *)
(* ================================================================== *)

Module FilterMore.
Import JS JSFacts Matcher MatcherFacts.

Lemma contains_ci_trans (l f' f : str) :
  contains_ci l f' -> contains_ci f' f -> contains_ci l f.
Proof.
  intros (pre & mid & post & -> & E) (a & m & b & -> & Em).
  unfold toLowerCase in E. rewrite !map_app in E.
  apply map_eq_app in E. destruct E as (a' & t & -> & Ea & E).
  apply map_eq_app in E. destruct E as (m' & b' & -> & Em' & Eb).
  exists (pre ++ a'), m', (b' ++ post). split.
  - now rewrite <- !app_assoc.
  - unfold toLowerCase. now rewrite Em'.
Qed.

Lemma filter_narrow {A} (g h : A -> bool) (l : list A) :
  (forall x, g x = true -> h x = true) ->
  filter g (filter h l) = filter g l.
Proof.
  intros H. induction l as [|x l IH]; simpl; [reflexivity|].
  destruct (h x) eqn:Eh; simpl.
  - now rewrite IH.
  - destruct (g x) eqn:Eg; [|exact IH]. apply H in Eg. congruence.
Qed.



End FilterMore.
